(** * get_fasta: streaming FASTA record selection

    A shallow embedding of [get_fasta.py] and the properties of its
    search strategies.  A FASTA stream is the finite list of
    [(header, lines)] pairs that the block reader yields; every [scan]
    returns what it reported, what it handed to the writer and what it left
    unread in the reader. *)

From Stdlib Require Import Ascii String.
From stdpp Require Import base numbers list strings pretty gmap.

Local Open Scope string_scope.
Local Open Scope list_scope.
Local Open Scope Z_scope.

(** ** Records, readers and scan outcomes *)

Abbreviation header := string.
Abbreviation record := (header * list string)%type.

(** The reader is consumed front to back; a [break] leaves a suffix unread. *)
Abbreviation reader := (list record).

(** A matcher is any callable from a label to a truth value. *)
Abbreviation matcher := (string → bool).

Record scan_result := ScanResult {
  found : bool;            (* value returned by [scan] *)
  written : list record;   (* calls of [writer.write], in order *)
  unread : reader          (* records never pulled from the reader *)
}.

(** Prepend one [writer.write] call to the outcome of the rest of a loop. *)
Definition wrote (r : record) (s : scan_result) : scan_result :=
  ScanResult (found s) (r :: written s) (unread s).

(** Positions of a stream, counted from [k]. *)
Fixpoint index_from {A} (k : Z) (l : list A) : list (Z * A) :=
  match l with
  | [] => []
  | x :: l' => (k, x) :: index_from (k + 1) l'
  end.

(** ** String slices *)

(** [s[:n]] *)
Fixpoint str_take (n : nat) (s : string) : string :=
  match n, s with
  | S n', String c s' => String c (str_take n' s')
  | _, _ => EmptyString
  end.

(** [s[n:]] *)
Fixpoint str_drop (n : nat) (s : string) : string :=
  match n, s with
  | S n', String _ s' => str_drop n' s'
  | _, _ => s
  end.

(** [s.find(c)], with [None] for [-1]. *)
Fixpoint str_find (c : ascii) (s : string) : option nat :=
  match s with
  | EmptyString => None
  | String a s' => if Ascii.eqb a c then Some 0%nat else S <$> str_find c s'
  end.

(** ** Matchers *)

Definition identity_filter (m : matcher) : matcher := m.

Definition is_sep (c : ascii) : bool :=
  (Ascii.eqb c " " || Ascii.eqb c "009")%char.

(** [sep_rx.search(value)] for [sep_rx = re.compile(r'[ \t]')]: the start of
    the leftmost space or tab, if there is one. *)
Fixpoint sep_search (value : string) : option nat :=
  match value with
  | EmptyString => None
  | String c value' =>
      if is_sep c then Some 0%nat else S <$> sep_search value'
  end.

Definition id_filter (m : matcher) : matcher :=
  λ value,
    let value :=
      match sep_search value with
      | Some start => str_take start value   (* value[:match.start()] *)
      | None => value
      end in
    m value.

Definition ExactMatch (text : string) : matcher :=
  λ value, String.eqb text value.

(** ** Search strategies *)

Module SingleLabelSearch.

Fixpoint loop (match_ : matcher) (reuse_match : bool) (found : bool)
    (rd : reader) : scan_result :=
  match rd with
  | [] => ScanResult found [] []
  | (header, lines) :: rd' =>
      if match_ header then
        if reuse_match
        then wrote (header, lines) (loop match_ reuse_match true rd')
        else ScanResult true [(header, lines)] rd'
      else loop match_ reuse_match found rd'
  end.

Definition scan (match_ : matcher) (reuse_match : bool) (rd : reader)
    : scan_result :=
  loop match_ reuse_match false rd.

End SingleLabelSearch.

Module IndexSearch.

Fixpoint loop (idx pos : Z) (rd : reader) : scan_result :=
  match rd with
  | [] => ScanResult false [] []          (* the [else] of the [for] *)
  | (header, lines) :: rd' =>
      if pos =? idx
      then ScanResult true [(header, lines)] rd'
      else loop idx (pos + 1) rd'
  end.

Definition scan (idx : Z) (rd : reader) : scan_result := loop idx 0 rd.

End IndexSearch.

Module RangeSearch.

(** [self.stop is not None and pos >= self.stop] *)
Definition at_stop (stop : option Z) (pos : Z) : bool :=
  match stop with Some e => e <=? pos | None => false end.

(** [self.start is None or pos >= self.start] *)
Definition from_start (start : option Z) (pos : Z) : bool :=
  match start with Some s => s <=? pos | None => true end.

(** The [else] branch of the [for]: the reader ran dry at [pos]. *)
Definition exhausted (start stop : option Z) (pos : Z) : bool :=
  if (match start with Some s => pos <? s | None => false end) then false
  else if (match stop with Some e => pos <? e - 1 | None => false end)
    then false
  else true.

Fixpoint loop (start stop : option Z) (pos : Z) (rd : reader)
    : scan_result :=
  match rd with
  | [] => ScanResult (exhausted start stop pos) [] []
  | (header, lines) :: rd' =>
      let pos := pos + 1 in
      if at_stop stop pos then ScanResult true [] rd'
      else if from_start start pos
        then wrote (header, lines) (loop start stop pos rd')
        else loop start stop pos rd'
  end.

Definition scan (start stop : option Z) (rd : reader) : scan_result :=
  loop start stop (-1) rd.

End RangeSearch.

Module MultipleLabelSearch.

(** [self.matches] together with the [found] list of one scan. *)
Record state := State {
  matches : list matcher;
  flags : list bool
}.

(** [for idx, match in enumerate(self.matches): if match(header): ... break]:
    the index at which the inner loop stops, if it stops. *)
Fixpoint first_match (header : string) (ms : list matcher) : option nat :=
  match ms with
  | [] => None
  | m :: ms' => if m header then Some 0%nat else S <$> first_match header ms'
  end.

(** What is done with the matching index after the record is written. *)
Definition mark (reuse_matches : bool) (idx : nat) (st : state) : state :=
  if reuse_matches
  then State (matches st) (<[idx := true]> (flags st))
  else State (delete idx (matches st)) (delete idx (flags st)).

(** One pass of the inner [for]: the writes it makes and the new state. *)
Definition step (reuse_matches : bool) (st : state) (r : record)
    : list record * state :=
  match first_match r.1 (matches st) with
  | Some idx => ([r], mark reuse_matches idx st)
  | None => ([], st)
  end.

Fixpoint loop (reuse_matches : bool) (st : state) (rd : reader)
    : list record * state * reader :=
  match rd with
  | [] => ([], st, [])
  | r :: rd' =>
      let '(w, st') := step reuse_matches st r in
      if (length (matches st') =? 0)%nat then (w, st', rd')
      else
        let '(ws, st'', rest) := loop reuse_matches st' rd' in
        (w ++ ws, st'', rest)
  end.

Definition init (ms : list matcher) : state :=
  State ms (replicate (length ms) false).

Definition run (ms : list matcher) (reuse_matches : bool) (rd : reader)
    : list record * state * reader :=
  loop reuse_matches (init ms) rd.

(** [all(found)] *)
Definition all (fl : list bool) : bool := forallb id fl.

Definition scan (ms : list matcher) (reuse_matches : bool) (rd : reader)
    : scan_result :=
  let '(ws, st, rest) := run ms reuse_matches rd in
  ScanResult (all (flags st)) ws rest.

End MultipleLabelSearch.

(** ** The writer *)

Module FastaWriter.

(** The strings passed to [stdout.write] by one [write] call. *)
Definition write (print_headers : bool) (r : record) : list string :=
  (if print_headers then [">" +:+ r.1 +:+ "
"] else []) ++ ((λ line, line +:+ "
") <$> r.2).

Definition output (print_headers : bool) (rs : list record) : list string :=
  rs ≫= write print_headers.

End FastaWriter.

(** ** Regular expressions

    The part of Python's [re] that the matchers rely on: [re.compile] as a
    parser of pattern strings and [rx.search(value) is not None] as a
    leftmost search.  The modelled syntax has literal characters, [.],
    [^], [$], the escapes [\w \W \d \D \s \S \t \n \r] and escaped
    punctuation, groups, [|] and the repetitions [* + ?] (also in their
    lazy spelling); [compile] gives [None] for every other pattern. *)

Module Re.

Inductive cclass :=
| CLit (c : ascii)
| CAny
| CWord (neg : bool)
| CDigit (neg : bool)
| CSpace (neg : bool).

Inductive regex :=
| Eps
| Chr (k : cclass)
| Bol
| Eol
| Cat (r1 r2 : regex)
| Alt (r1 r2 : regex)
| Star (r : regex).

Definition between (lo hi c : ascii) : bool :=
  ((nat_of_ascii lo <=? nat_of_ascii c)
   && (nat_of_ascii c <=? nat_of_ascii hi))%nat.

Definition is_digit (c : ascii) : bool := between "0" "9" c.

Definition is_word (c : ascii) : bool :=
  (between "a" "z" c || between "A" "Z" c || is_digit c
   || Ascii.eqb c "_")%char.

Definition is_space (c : ascii) : bool :=
  (Ascii.eqb c " " || between "009" "013" c)%char.

Definition newline : ascii := "010"%char.

Definition cclass_match (k : cclass) (c : ascii) : bool :=
  match k with
  | CLit a => Ascii.eqb a c
  | CAny => negb (Ascii.eqb c newline)
  | CWord neg => xorb neg (is_word c)
  | CDigit neg => xorb neg (is_digit c)
  | CSpace neg => xorb neg (is_space c)
  end.

(** [$] without [re.MULTILINE]: at the end, or before a final newline. *)
Definition at_end (s : list ascii) : bool :=
  match s with
  | [] => true
  | [c] => Ascii.eqb c newline
  | _ => false
  end.

(** Backtracking match of [r] at the head of [s]; [bos] tells whether the
    head of [s] is the beginning of the subject, and [k] receives what
    is left.  An iteration of a star that consumes nothing is dropped. *)
Fixpoint accepts (r : regex) (bos : bool) (s : list ascii)
    (k : bool → list ascii → bool) : bool :=
  match r with
  | Eps => k bos s
  | Chr c =>
      match s with
      | a :: s' => cclass_match c a && k false s'
      | [] => false
      end
  | Bol => bos && k bos s
  | Eol => at_end s && k bos s
  | Cat r1 r2 => accepts r1 bos s (λ b s', accepts r2 b s' k)
  | Alt r1 r2 => accepts r1 bos s k || accepts r2 bos s k
  | Star r' =>
      (fix star (n : nat) (bos : bool) (s : list ascii) : bool :=
         k bos s ||
         match n with
         | O => false
         | S n' =>
             accepts r' bos s
               (λ b s', (length s' <? length s)%nat && star n' b s')
         end) (length s) bos s
  end.

Fixpoint search_from (r : regex) (bos : bool) (s : list ascii) : bool :=
  accepts r bos s (λ _ _, true) ||
  match s with
  | [] => false
  | _ :: s' => search_from r false s'
  end.

(** [rx.search(value) is not None] *)
Definition search (r : regex) (value : string) : bool :=
  search_from r true (list_ascii_of_string value).

(** *** Parsing of patterns *)

Definition is_quant (c : ascii) : bool :=
  (Ascii.eqb c "*" || Ascii.eqb c "+" || Ascii.eqb c "?")%char.

Definition quantify (q : ascii) (r : regex) : regex :=
  if Ascii.eqb q "*" then Star r
  else if Ascii.eqb q "+" then Cat r (Star r)
  else Alt r Eps.

Definition is_assertion (r : regex) : bool :=
  match r with Bol | Eol => true | _ => false end.

Definition escape (c : ascii) : option regex :=
  if Ascii.eqb c "w" then Some (Chr (CWord false))
  else if Ascii.eqb c "W" then Some (Chr (CWord true))
  else if Ascii.eqb c "d" then Some (Chr (CDigit false))
  else if Ascii.eqb c "D" then Some (Chr (CDigit true))
  else if Ascii.eqb c "s" then Some (Chr (CSpace false))
  else if Ascii.eqb c "S" then Some (Chr (CSpace true))
  else if Ascii.eqb c "t" then Some (Chr (CLit "009"))
  else if Ascii.eqb c "n" then Some (Chr (CLit newline))
  else if Ascii.eqb c "r" then Some (Chr (CLit "013"))
  else if is_word c || (128 <=? nat_of_ascii c)%nat then None
  else Some (Chr (CLit c)).

(** A repetition operator after the item [a], if there is one. *)
Definition parse_repeat (a : regex) (p : list ascii)
    : option (regex * list ascii) :=
  match p with
  | q :: p' =>
      if is_quant q then
        if is_assertion a then None            (* nothing to repeat *)
        else
          let p'' := match p' with
                     | c :: t => if Ascii.eqb c "?" then t else p'
                     | [] => p'
                     end in
          match p'' with
          | c :: _ =>
              if is_quant c || Ascii.eqb c "{" then None  (* multiple repeat *)
              else Some (quantify q a, p'')
          | [] => Some (quantify q a, p'')
          end
      else if Ascii.eqb q "{" then None
      else Some (a, p)
  | [] => Some (a, [])
  end.

Fixpoint parse_alt (n : nat) (p : list ascii)
    : option (regex * list ascii) :=
  match n with
  | O => None
  | S n' =>
      '(r, p1) ← parse_seq n' p;
      match p1 with
      | c :: p2 =>
          if Ascii.eqb c "|"
          then '(r2, p3) ← parse_alt n' p2; Some (Alt r r2, p3)
          else Some (r, p1)
      | [] => Some (r, p1)
      end
  end
with parse_seq (n : nat) (p : list ascii)
    : option (regex * list ascii) :=
  match n with
  | O => None
  | S n' =>
      match p with
      | [] => Some (Eps, [])
      | c :: _ =>
          if (Ascii.eqb c "|" || Ascii.eqb c ")")%char then Some (Eps, p)
          else
            '(a, p1) ← parse_atom n' p;
            '(a', p2) ← parse_repeat a p1;
            '(r, p3) ← parse_seq n' p2;
            Some (Cat a' r, p3)
      end
  end
with parse_atom (n : nat) (p : list ascii)
    : option (regex * list ascii) :=
  match n with
  | O => None
  | S n' =>
      match p with
      | [] => None
      | c :: p1 =>
          if Ascii.eqb c "(" then
            match p1 with
            | d :: _ =>
                if Ascii.eqb d "?" then None
                else
                  '(r, p2) ← parse_alt n' p1;
                  match p2 with
                  | e :: p3 => if Ascii.eqb e ")" then Some (r, p3) else None
                  | [] => None
                  end
            | [] => None
            end
          else if Ascii.eqb c "\" then
            match p1 with
            | d :: p2 => a ← escape d; Some (a, p2)
            | [] => None
            end
          else if Ascii.eqb c "." then Some (Chr CAny, p1)
          else if Ascii.eqb c "^" then Some (Bol, p1)
          else if Ascii.eqb c "$" then Some (Eol, p1)
          else if (is_quant c || Ascii.eqb c "[" || Ascii.eqb c "{")%char
            then None
          else Some (Chr (CLit c), p1)
      end
  end.

(** [re.compile(pattern)] on the modelled syntax: literals, [.], [^], [$],
    the escapes of [escape], groups, [|] and the operators [*], [+], [?]
    (greedy or lazy, which a search that only tests for a match does not
    tell apart).  [None] stands for the raised [re.error], and also for a
    pattern with syntax that is not modelled: sets [[...]], counted
    repetition [{m,n}], groups that open with [(?], and the escapes made of
    a letter or digit other than those of [escape].  On such a pattern the
    model says nothing of the program; the properties below are about
    patterns it compiles. *)
Definition compile (pattern : string) : option regex :=
  let p := list_ascii_of_string pattern in
  match parse_alt (3 * length p + 3) p with
  | Some (r, []) => Some r
  | _ => None
  end.

End Re.

Definition RegularExpressionMatch (rx : string) : option matcher :=
  r ← Re.compile rx; Some (λ value, Re.search r value).

Definition WordRegularExpressionMatch (rx : string) : option matcher :=
  RegularExpressionMatch ("(^|\W)" +:+ rx +:+ "(\W|$)").

(** ** Failures

    [exit(msg)] ends the process with a message; an invalid pattern makes
    [re.compile] raise, which nothing catches. *)

Inductive failure :=
| SystemExit (msg : string)
| ReError (pattern : string).

Definition result (A : Type) : Type := failure + A.

Definition exit {A} (msg : string) : result A := inl (SystemExit msg).

#[global] Instance result_ret : MRet result := λ A a, inr a.
#[global] Instance result_bind : MBind result := λ A B f c,
  match c with
  | inl e => inl e
  | inr a => f a
  end.
#[global] Instance result_fmap : FMap result := λ A B f c,
  match c with
  | inl e => inl e
  | inr a => inr (f a)
  end.

(** ** Index and range specifications *)

Fixpoint lstrip (s : list ascii) : list ascii :=
  match s with
  | c :: s' => if Re.is_space c then lstrip s' else s
  | [] => []
  end.

Definition strip (s : list ascii) : list ascii :=
  rev (lstrip (rev (lstrip s))).

Fixpoint digits_value (acc : Z) (s : list ascii) : option Z :=
  match s with
  | [] => Some acc
  | c :: s' =>
      if Re.is_digit c
      then digits_value (10 * acc + (Z.of_nat (nat_of_ascii c) - 48)) s'
      else None
  end.

Definition unsigned_value (ds : list ascii) : option Z :=
  match ds with
  | [] => None
  | _ => digits_value 0 ds
  end.

(** The builtin [int(value)] on a string: blanks around an optionally
    signed run of decimal digits; [None] for [ValueError]. *)
Definition py_int (value : string) : option Z :=
  match strip (list_ascii_of_string value) with
  | c :: ds =>
      if Ascii.eqb c "-" then Z.opp <$> unsigned_value ds
      else if Ascii.eqb c "+" then unsigned_value ds
      else unsigned_value (c :: ds)
  | [] => None
  end.

Definition is_range (value : string) : bool :=
  match value with
  | String c _ => Ascii.eqb c "@"
  | EmptyString => false
  end.

Inductive range_spec :=
| idx_spec (idx : Z)
| range_spec_of (start stop : option Z).

(** [stop <= start], where [None] orders below every integer. *)
Definition le_start (stop : Z) (start : option Z) : bool :=
  match start with
  | Some s => stop <=? s
  | None => false
  end.

Definition parse_range (value : string) : result range_spec :=
  let value := str_drop 1 value in
  match str_find ":" value with
  | None =>
      match py_int value with
      | Some idx =>
          if idx <? 0 then exit ("Invalid index: " +:+ value)
          else mret (idx_spec idx)
      | None => exit ("Invalid index: " +:+ value)
      end
  | Some idx =>
      let start := str_take idx value in
      start ←
        (if (String.length start =? 0)%nat then mret None
         else
           match py_int start with
           | Some s =>
               if s <? 0 then exit ("Invalid start index: " +:+ pretty s)
               else mret (Some s)
           | None => exit ("Invalid start index: " +:+ start)
           end);
      let stop := str_drop (idx + 1) value in
      stop ←
        (if (String.length stop =? 0)%nat then mret None
         else
           match py_int stop with
           | Some e =>
               if le_start e start then exit ("Invalid stop index: " +:+ stop)
               else mret (Some e)
           | None => exit ("Invalid stop index: " +:+ stop)
           end);
      mret (range_spec_of start stop)
  end.

(** ** Labels from a file *)

Definition is_eol (c : ascii) : bool :=
  (Ascii.eqb c "010" || Ascii.eqb c "013")%char.

Fixpoint rstrip_eol (s : string) : string :=
  match s with
  | EmptyString => EmptyString
  | String c s' =>
      match rstrip_eol s' with
      | EmptyString => if is_eol c then EmptyString else String c EmptyString
      | t => String c t
      end
  end.

(** [vfork.io.util.safe_rstrip]: the line without its line terminator. *)
Definition safe_rstrip (line : string) : string := rstrip_eol line.

(** A file system: the lines of a readable file, each with its terminator;
    [None] when reading raises [IOError]. *)
Definition files : Type := string → option (list string).

Fixpoint load_loop (filename : string) (labels : gset string)
    (lines : list string) : result (gset string) :=
  match lines with
  | [] => mret labels
  | line :: lines' =>
      let label := safe_rstrip line in
      if decide (label ∈ labels)
      then exit ("Duplicated label '" +:+ label +:+ "' in file " +:+ filename)
      else load_loop filename ({[label]} ∪ labels) lines'
  end.

Definition load_labels (fs : files) (filename : string)
    : result (gset string) :=
  match fs filename with
  | None => exit ("Error reading from file " +:+ filename)
  | Some lines =>
      labels ← load_loop filename ∅ lines;
      if (size labels =? 0)%nat
      then exit ("No label in file " +:+ filename)
      else mret labels
  end.

(** ** The program *)

Record options := Options {
  id_only : bool;
  regexp : bool;
  word_regexp : bool;
  from_file : bool;
  no_headers : bool;
  ignore_missing : bool;
  read_all_input_file : bool
}.

(** The four strategy objects, told apart by their [scan] method. *)
Inductive search :=
| SingleLabel (match_ : matcher) (reuse_match : bool)
| MultipleLabel (ms : list matcher) (reuse_matches : bool)
| Index (idx : Z)
| Range (start stop : option Z).

Definition scan (s : search) (rd : reader) : scan_result :=
  match s with
  | SingleLabel m reuse => SingleLabelSearch.scan m reuse rd
  | MultipleLabel ms reuse => MultipleLabelSearch.scan ms reuse rd
  | Index idx => IndexSearch.scan idx rd
  | Range start stop => RangeSearch.scan start stop rd
  end.

(** Construction of a pattern matcher, where [re.compile] may raise. *)
Definition compiled (rx : string) (m : option matcher) : result matcher :=
  match m with
  | Some m => mret m
  | None => inl (ReError rx)
  end.

(** The matcher class [mc] and [reuse_match] chosen by the options. *)
Definition matcher_class (o : options) : (string → result matcher) * bool :=
  if regexp o then (λ rx, compiled rx (RegularExpressionMatch rx), true)
  else if word_regexp o
    then (λ rx, compiled rx (WordRegularExpressionMatch rx), true)
  else (λ text, mret (ExactMatch text), false).

Definition filter_class (o : options) : matcher → matcher :=
  if id_only o then id_filter else identity_filter.

(** The checks on the command line that come before anything is built. *)
Definition check_args (o : options) (args : list string) : result string :=
  match args with
  | [arg] =>
      if regexp o && word_regexp o
      then exit "Cannot use --regexp and --word-regexp together."
      else if is_range arg && (regexp o || word_regexp o)
      then exit "Cannot use --regexp or --word-regexp with indexes."
      else mret arg
  | _ => exit "Unexpected argument number."
  end.

(** The strategy [s] built for the argument.  The matchers of a label file
    are built in the order in which Python iterates over the set of labels,
    which the language leaves open; [elements] stands for that order. *)
Definition select (o : options) (fs : files) (arg : string)
    : result search :=
  if is_range arg then
    spec ← parse_range arg;
    match spec with
    | idx_spec idx => mret (Index idx)
    | range_spec_of start stop => mret (Range start stop)
    end
  else
    let '(mc, reuse_match) := matcher_class o in
    let fc := filter_class o in
    if from_file o then
      labels ← load_labels fs arg;
      ms ← mapM (λ l, fc <$> mc l) (elements labels);
      mret (MultipleLabel ms reuse_match)
    else
      m ← mc arg;
      mret (SingleLabel (fc m) reuse_match).

Record run := Run {
  status : result ();        (* how the process ended *)
  stdout : list string;      (* what was written to standard output *)
  stdin_left : reader        (* what was never read from standard input *)
}.

Definition main (o : options) (args : list string) (fs : files)
    (stdin : reader) : run :=
  match check_args o args ≫= select o fs with
  | inl e => Run (inl e) [] stdin
  | inr s =>
      let res := scan s stdin in
      let out := FastaWriter.output (negb (no_headers o)) (written res) in
      if negb (found res) && negb (ignore_missing o)
      then Run (exit "Some FASTA blocks are missing.") out (unread res)
      else Run (mret ()) out
             (if read_all_input_file o then [] else unread res)
  end.

(** ** Vocabulary of the specification *)

(** Position [p] holds a record of the stream. *)
Definition reached (rd : reader) (p : Z) : Prop := p < Z.of_nat (length rd).

(** [start <= p < stop], with no upper bound when [stop] is omitted. *)
Definition in_range (start : Z) (stop : option Z) (p : Z) : bool :=
  (start <=? p) && match stop with Some e => p <? e | None => true end.

(** The records at the positions of the range, in stream order. *)
Definition records_in_range (start : Z) (stop : option Z) (rd : reader)
    : list record :=
  (filter (λ pr, in_range start stop pr.1) (index_from 0 rd)).*2.

(** The label cut at its first space or tab. *)
Fixpoint truncated (label : string) : string :=
  match label with
  | EmptyString => EmptyString
  | String c label' =>
      if is_sep c then EmptyString else String c (truncated label')
  end.

(** No character of the string is a space or a tab. *)
Fixpoint sep_free (s : string) : bool :=
  match s with
  | EmptyString => true
  | String c s' => negb (is_sep c) && sep_free s'
  end.

(** The matcher accepts the label of the record. *)
Definition hits (m : matcher) (r : record) : bool := m r.1.

(** Every target accepts the label of some record of the stream. *)
Definition targets_matched (ms : list matcher) (rd : reader) : Prop :=
  Forall (λ m, ∃ r, r ∈ rd ∧ hits m r = true) ms.

(** No label of the stream is accepted by two targets. *)
Definition at_most_one_target (ms : list matcher) (rd : reader) : Prop :=
  Forall (λ r, (length (filter (λ m : matcher, hits m r) ms) ≤ 1)%nat) rd.

(** Some target accepts the label of the record. *)
Definition any_hit (ms : list matcher) (r : record) : bool :=
  existsb (λ m, hits m r) ms.

(** The target accepts no record of [before]. *)
Definition unmatched (before : reader) (m : matcher) : bool :=
  forallb (λ r, negb (hits m r)) before.

(** Some target accepts [r] after having accepted nothing in [before]. *)
Definition is_first_hit (ms : list matcher) (before : reader) (r : record)
    : bool :=
  existsb (λ m, hits m r && unmatched before m) ms.

Fixpoint first_hits_after (ms : list matcher) (before rd : reader)
    : list record :=
  match rd with
  | [] => []
  | r :: rd' =>
      (if is_first_hit ms before r then [r] else [])
      ++ first_hits_after ms (before ++ [r]) rd'
  end.

(** The records that are the first of the stream to be accepted by one of
    the targets. *)
Definition first_hits (ms : list matcher) (rd : reader) : list record :=
  first_hits_after ms [] rd.

(** The pattern is a plain word: letters, digits and underscores only. *)
Definition plain_word (p : string) : bool :=
  forallb Re.is_word (list_ascii_of_string p).

(** A non-word character, or the end of the label, comes next. *)
Definition boundary (s : list ascii) : Prop :=
  s = [] ∨ ∃ c s', s = c :: s' ∧ Re.is_word c = false.

(** The word [w] stands in the label with a non-word character, or an end of
    the label, on either side. *)
Definition delimited (w L : list ascii) : Prop :=
  ∃ pre post,
    L = pre ++ w ++ post
    ∧ (pre = [] ∨ ∃ pre' c, pre = pre' ++ [c] ∧ Re.is_word c = false)
    ∧ boundary post.



(** What follows a plain word in a wrapped pattern: an opening bracket. *)
Definition opens_group (rest : list ascii) : Prop :=
  ∃ q, rest = "("%char :: q.

(** The characters of [w] one after the other, then [tl]. *)
Definition lits (w : list ascii) (tl : Re.regex) : Re.regex :=
  foldr (λ c r, Re.Cat (Re.Chr (Re.CLit c)) r) tl w.

Definition non_word : Re.regex := Re.Chr (Re.CWord true).

(** What [(\W|$)] compiles to at the end of a pattern. *)
Definition word_tail : Re.regex :=
  Re.Cat (Re.Alt (Re.Cat non_word Re.Eps) (Re.Cat Re.Eol Re.Eps)) Re.Eps.

(** What [(^|\W)w(\W|$)] compiles to for a plain word [w]. *)
Definition word_regex (w : list ascii) : Re.regex :=
  Re.Cat (Re.Alt (Re.Cat Re.Bol Re.Eps) (Re.Cat non_word Re.Eps))
    (lits w word_tail).


(** The process ended through [exit] or an uncaught exception. *)
Definition failed (r : run) : Prop := ∃ e, status r = inl e.

(** The lines are read without meeting a label twice. *)
Definition fresh_labels (acc : gset string) (lines : list string) : Prop :=
  NoDup (safe_rstrip <$> lines)
  ∧ Forall (λ l, l ∉ acc) (safe_rstrip <$> lines).

(** Settles [P x] or [¬ P x] for a boolean [P] whose value [H] gives. *)
Ltac hit_with H :=
  unfold hits; cbn [fst]; rewrite H; first [exact I | exact id].

(** ** Vocabulary of the further properties *)

(** A specification that the strategies can be built from: indexes are not
    negative and a given stop lies after a given start. *)
Definition valid_spec (spec : range_spec) : Prop :=
  match spec with
  | idx_spec idx => 0 ≤ idx
  | range_spec_of (Some s) (Some e) => 0 ≤ s < e
  | range_spec_of (Some s) None => 0 ≤ s
  | range_spec_of None _ => True
  end.

(** The process ended through [exit]. *)
Definition is_exit (e : failure) : Prop := ∃ msg, e = SystemExit msg.

(** Two settings that agree on everything that decides which records are
    selected. *)
Definition same_selection (o o' : options) : Prop :=
  id_only o = id_only o' ∧ regexp o = regexp o'
  ∧ word_regexp o = word_regexp o' ∧ from_file o = from_file o'.

(** What an exact matcher compares with its label: the header, or with
    [-i] the header cut at its first space or tab. *)
Definition label_key (id : bool) (r : record) : string :=
  if id then truncated r.1 else r.1.

(** The matchers built for the labels of a file when no pattern option is
    given. *)
Definition exact_matchers (o : options) (labels : list string)
    : list matcher :=
  (λ l, filter_class o (ExactMatch l)) <$> labels.

(** The records whose key is one of the labels and differs from the key of
    every record before them. *)
Fixpoint first_by_key (key : record → string) (labels : gset string)
    (before rd : reader) : list record :=
  match rd with
  | [] => []
  | r :: rd' =>
      (if decide (key r ∈ labels ∧ key r ∉ key <$> before) then [r] else [])
      ++ first_by_key key labels (before ++ [r]) rd'
  end.

(** The word [w] occurs somewhere in the label. *)
Definition occurs (w L : list ascii) : Prop :=
  ∃ pre post, L = pre ++ w ++ post.

(** What a pattern option asks of a plain word and a label: with [-r] that
    the word occurs in the label, with [-w] that it stands there between
    non-word characters or ends of the label. *)
Definition word_found (o : options) (p L : string) : Prop :=
  if regexp o
  then occurs (list_ascii_of_string p) (list_ascii_of_string L)
  else delimited (list_ascii_of_string p) (list_ascii_of_string L).

(** * Properties *)

(** ** Facts about lists *)

Lemma filter_none {A} (P : A → Prop) `{!∀ x, Decision (P x)} (l : list A) :
  Forall (λ x, ¬ P x) l → filter P l = [].
Proof.
  induction 1 as [|x l Hx _ IH]; [done|]. by rewrite filter_cons_False.
Qed.

Lemma filter_all {A} (P : A → Prop) `{!∀ x, Decision (P x)} (l : list A) :
  Forall P l → filter P l = l.
Proof.
  induction 1 as [|x l Hx _ IH]; [done|].
  by rewrite filter_cons_True, IH.
Qed.

(** ** Range search *)

Lemma index_from_ge {A} (l : list A) k p x :
  (p, x) ∈ index_from k l → k ≤ p.
Proof.
  revert k; induction l as [|y l IH]; intros k; simpl.
  - by intros ?%elem_of_nil.
  - intros [[= -> ->]|Hin%IH]%elem_of_cons; lia.
Qed.

Section range.
Variable start : Z.

Lemma nothing_past_stop stop e k (rd : reader) :
  stop = Some e → e ≤ k →
  filter (λ pr, in_range start stop pr.1) (index_from k rd) = [].
Proof.
  intros -> Hk. apply filter_none, Forall_forall.
  intros [p r] Hin%index_from_ge. unfold in_range; simpl.
  intros [_ H]%andb_prop_elim. apply Is_true_eq_true, Z.ltb_lt in H. lia.
Qed.

Lemma range_loop_written stop pos rd :
  written (RangeSearch.loop (Some start) stop pos rd)
  = (filter (λ pr, in_range start stop pr.1) (index_from (pos + 1) rd)).*2.
Proof.
  revert pos; induction rd as [|[h ls] rd IH]; intros pos; [done|].
  cbn [RangeSearch.loop index_from].
  destruct (RangeSearch.at_stop stop (pos + 1)) eqn:Hstop.
  - destruct stop as [e|]; [|done]. simpl in Hstop.
    apply Z.leb_le in Hstop.
    change ((pos + 1, (h, ls)) :: index_from (pos + 1 + 1) rd)
      with (index_from (pos + 1) ((h, ls) :: rd)).
    by rewrite (nothing_past_stop _ e).
  - assert (in_range start stop (pos + 1)
            = RangeSearch.from_start (Some start) (pos + 1)) as Hin.
    { unfold in_range; simpl. destruct stop as [e|]; simpl in *.
      - apply Z.leb_gt in Hstop. replace (pos + 1 <? e) with true.
        + by rewrite andb_true_r.
        + symmetry; apply Z.ltb_lt; lia.
      - by rewrite andb_true_r. }
    destruct (RangeSearch.from_start (Some start) (pos + 1)) eqn:Hs.
    + rewrite filter_cons_True; [|by cbn [fst]; rewrite Hin].
      simpl. by rewrite IH.
    + rewrite filter_cons_False; [|cbn [fst]; rewrite Hin; exact id].
      by rewrite IH.
Qed.

Lemma range_loop_found stop pos rd :
  (∀ e, stop = Some e → start < e) →
  found (RangeSearch.loop (Some start) stop pos rd) = false ↔
  pos + Z.of_nat (length rd) < start
  ∨ ∃ e, stop = Some e ∧ pos + Z.of_nat (length rd) < e - 1.
Proof.
  intros stop_after_start.
  revert pos; induction rd as [|[h ls] rd IH]; intros pos.
  - simpl. unfold RangeSearch.exhausted.
    destruct (pos <? start) eqn:H1.
    + apply Z.ltb_lt in H1. split; [left; lia|done].
    + apply Z.ltb_ge in H1. destruct stop as [e|].
      * destruct (pos <? e - 1) eqn:H2.
        -- apply Z.ltb_lt in H2. split; [right; exists e; split; [done|lia]|done].
        -- apply Z.ltb_ge in H2. split; [done|].
           intros [?|(e' & [= <-] & ?)]; lia.
      * split; [done|]. intros [?|(e' & [=] & ?)]; lia.
  - cbn [RangeSearch.loop length].
    destruct (RangeSearch.at_stop stop (pos + 1)) eqn:Hstop.
    + destruct stop as [e|]; [|done]. simpl in Hstop.
      apply Z.leb_le in Hstop. pose proof (stop_after_start e eq_refl).
      simpl. split; [done|]. intros [?|(e' & [= <-] & ?)]; lia.
    + assert (found (RangeSearch.loop (Some start) stop (pos + 1) rd) = false
              ↔ (pos + Z.of_nat (S (length rd)) < start
                 ∨ ∃ e, stop = Some e
                        ∧ pos + Z.of_nat (S (length rd)) < e - 1)) as Hrec.
      { rewrite IH. split.
        - intros [?|(e & -> & ?)]; [left; lia|right; exists e; split; [done|lia]].
        - intros [?|(e & -> & ?)]; [left; lia|right; exists e; split; [done|lia]]. }
      by destruct (RangeSearch.from_start (Some start) (pos + 1)).
Qed.

Lemma in_range_from stop k (rd : reader) :
  start ≤ k →
  (filter (λ pr, in_range start stop pr.1) (index_from k rd)).*2
  = match stop with
    | Some e => take (Z.to_nat (e - k)) rd
    | None => rd
    end.
Proof.
  revert k; induction rd as [|r rd IH]; intros k Hk.
  - by destruct stop; rewrite ?take_nil.
  - cbn [index_from].
    destruct (in_range start stop k) eqn:Hin.
    + rewrite filter_cons_True by (by cbn [fst]; rewrite Hin).
      cbn [fmap list_fmap snd]. rewrite IH by lia.
      destruct stop as [e|]; [|done]. unfold in_range in Hin.
      apply andb_true_iff in Hin as [_ Hlt%Z.ltb_lt].
      replace (Z.to_nat (e - k)) with (S (Z.to_nat (e - (k + 1)))) by lia.
      done.
    + rewrite filter_cons_False by (cbn [fst]; rewrite Hin; exact id).
      unfold in_range in Hin. apply andb_false_iff in Hin as [Hle|Hge].
      { apply Z.leb_gt in Hle. lia. }
      destruct stop as [e|]; [|done]. apply Z.ltb_ge in Hge.
      rewrite (nothing_past_stop _ e) by (done || lia).
      by replace (Z.to_nat (e - k)) with 0%nat by lia.
Qed.

Lemma in_range_slice stop k (rd : reader) :
  0 ≤ k → k ≤ start →
  (filter (λ pr, in_range start stop pr.1) (index_from k rd)).*2
  = match stop with
    | Some e => take (Z.to_nat (e - start)) (drop (Z.to_nat (start - k)) rd)
    | None => drop (Z.to_nat (start - k)) rd
    end.
Proof.
  revert k; induction rd as [|r rd IH]; intros k H0 Hk.
  - rewrite drop_nil. by destruct stop; rewrite ?take_nil.
  - destruct (decide (k = start)) as [->|Hne].
    + rewrite in_range_from by lia. by rewrite Z.sub_diag.
    + cbn [index_from]. rewrite filter_cons_False.
      2:{ unfold in_range; cbn [fst].
          replace (start <=? k) with false by (symmetry; apply Z.leb_gt; lia).
          exact id. }
      rewrite IH by lia.
      by replace (Z.to_nat (start - k)) with (S (Z.to_nat (start - (k + 1))))
        by lia.
Qed.

End range.

(** C1. With [start] given and [stop] omitted or greater than [start],
    range search writes exactly the records at the positions [p] with
    [start <= p < stop], in stream order (the slice of the stream between
    the two bounds), and reports [false] exactly when
    the stream ends before position [start], or before position
    [stop - 1] for a given [stop]. *)
Theorem range_scan_correct (start : Z) (stop : option Z) (rd : reader) :
  0 ≤ start →
  (∀ e, stop = Some e → start < e) →
  let res := RangeSearch.scan (Some start) stop rd in
  written res = records_in_range start stop rd
  ∧ written res
    = match stop with
      | Some e => take (Z.to_nat (e - start)) (drop (Z.to_nat start) rd)
      | None => drop (Z.to_nat start) rd
      end
  ∧ (found res = false ↔
       ¬ reached rd start ∨ ∃ e, stop = Some e ∧ ¬ reached rd (e - 1)).
Proof.
  intros H0 Hstop. split; [|split].
  - apply range_loop_written.
  - unfold RangeSearch.scan. rewrite range_loop_written.
    rewrite in_range_slice by lia. by rewrite Z.sub_0_r.
  - unfold RangeSearch.scan, reached.
    rewrite range_loop_found by done. split.
    + intros [?|(e & -> & ?)]; [left; lia|right; exists e; split; [done|lia]].
    + intros [?|(e & -> & ?)]; [left; lia|right; exists e; split; [done|lia]].
Qed.

Lemma range_scan_correct_witness :
  let rd := [("A", ["aa"]); ("B", ["bb"]); ("C", ["cc"]); ("D", ["dd"])] in
  let res := RangeSearch.scan (Some 1) (Some 3) rd in
  written res = records_in_range 1 (Some 3) rd
  ∧ written res = take (Z.to_nat (3 - 1)) (drop (Z.to_nat 1) rd)
  ∧ (found res = false ↔
       ¬ reached rd 1 ∨ ∃ e, Some 3 = Some e ∧ ¬ reached rd (e - 1)).
Proof.
  apply (range_scan_correct 1 (Some 3)); [lia|].
  intros e [= <-]; lia.
Defined.

(** The examples of the specification for range search. *)
Example range_examples :
  let A := ("A", ["aa"]) in let B := ("B", ["bb"]) in
  let C := ("C", ["cc"]) in let D := ("D", ["dd"]) in
  RangeSearch.scan (Some 1) (Some 3) [A; B; C; D] = ScanResult true [B; C] []
  ∧ RangeSearch.scan (Some 0) None [A; B] = ScanResult true [A; B] []
  ∧ RangeSearch.scan (Some 5) None [A; B; C] = ScanResult false [] []
  ∧ parse_range "@2:2" = exit "Invalid stop index: 2".
Proof. repeat split. Qed.

(** ** Index search *)

Lemma index_loop (idx pos : Z) (rd : reader) :
  pos ≤ idx →
  IndexSearch.loop idx pos rd =
    match rd !! Z.to_nat (idx - pos) with
    | Some r => ScanResult true [r] (drop (S (Z.to_nat (idx - pos))) rd)
    | None => ScanResult false [] []
    end.
Proof.
  revert pos; induction rd as [|[h ls] rd IH]; intros pos Hle; [done|].
  cbn [IndexSearch.loop]. destruct (pos =? idx) eqn:Heq.
  - apply Z.eqb_eq in Heq as ->. by rewrite Z.sub_diag.
  - apply Z.eqb_neq in Heq. rewrite IH by lia.
    replace (Z.to_nat (idx - pos)) with (S (Z.to_nat (idx - (pos + 1))))
      by lia.
    done.
Qed.

(** C4. For a non-negative index, index search writes exactly the record
    at that position and leaves everything after it unread, reporting
    [true]; when the stream holds no such position it writes nothing and
    reports [false]. *)
Theorem index_scan_correct (idx : Z) (rd : reader) :
  0 ≤ idx →
  let res := IndexSearch.scan idx rd in
  (reached rd idx →
     ∃ r, rd !! Z.to_nat idx = Some r
          ∧ res = ScanResult true [r] (drop (S (Z.to_nat idx)) rd))
  ∧ (¬ reached rd idx → res = ScanResult false [] []).
Proof.
  intros Hidx res. subst res. unfold IndexSearch.scan, reached.
  rewrite index_loop, Z.sub_0_r by done. split.
  - intros Hlt. destruct (lookup_lt_is_Some_2 rd (Z.to_nat idx)) as [r Hr];
      [lia|]. exists r. by rewrite Hr.
  - intros Hge. by rewrite (lookup_ge_None_2 rd (Z.to_nat idx)) by lia.
Qed.

Lemma index_scan_correct_witness :
  let rd := [("A", ["aa"]); ("B", []); ("C", ["cc"]); ("D", ["dd"]);
             ("E", ["ee"])] in
  let res := IndexSearch.scan 3 rd in
  (reached rd 3 →
     ∃ r, rd !! Z.to_nat 3 = Some r
          ∧ res = ScanResult true [r] (drop (S (Z.to_nat 3)) rd))
  ∧ (¬ reached rd 3 → res = ScanResult false [] []).
Proof. apply (index_scan_correct 3); lia. Defined.

(** The examples of the specification for index search. *)
Example index_examples :
  let rd := [("A", ["aa"]); ("B", []); ("C", ["cc"]); ("D", ["dd"]);
             ("E", ["ee"])] in
  IndexSearch.scan 3 rd = ScanResult true [("D", ["dd"])] [("E", ["ee"])]
  ∧ IndexSearch.scan 10 rd = ScanResult false [] [].
Proof. split; reflexivity. Qed.

(** ** Single-label search *)

Section single.
Variable m : matcher.

Lemma single_loop_found reuse f rd :
  found (SingleLabelSearch.loop m reuse f rd) = f || existsb (hits m) rd.
Proof.
  revert f; induction rd as [|[h ls] rd IH]; intros f; simpl.
  - by rewrite orb_false_r.
  - unfold hits at 1; simpl. destruct (m h); simpl.
    + destruct reuse; simpl; [rewrite IH|]; by rewrite orb_true_r.
    + apply IH.
Qed.

Lemma single_loop_reuse f rd :
  written (SingleLabelSearch.loop m true f rd) = filter (λ r, hits m r) rd
  ∧ unread (SingleLabelSearch.loop m true f rd) = [].
Proof.
  revert f; induction rd as [|[h ls] rd IH]; intros f; [done|].
  cbn [SingleLabelSearch.loop]. destruct (m h) eqn:Hm.
  - rewrite filter_cons_True by (hit_with Hm).
    destruct (IH true) as [Hw Hu]. unfold wrote; simpl. by rewrite Hw, Hu.
  - rewrite filter_cons_False by (hit_with Hm).
    apply IH.
Qed.

Lemma single_loop_first f rd :
  let res := SingleLabelSearch.loop m false f rd in
  written res = take 1 (filter (λ r, hits m r) rd)
  ∧ match written res with
    | r :: _ =>
        ∃ pre, rd = pre ++ r :: unread res
               ∧ Forall (λ x, hits m x = false) pre
    | [] => unread res = []
    end.
Proof.
  revert f; induction rd as [|[h ls] rd IH]; intros f; [done|].
  cbn [SingleLabelSearch.loop]. destruct (m h) eqn:Hm.
  - rewrite filter_cons_True by (hit_with Hm).
    split; [done|]. by exists [].
  - rewrite filter_cons_False by (hit_with Hm).
    destruct (IH f) as [Hw Hu]. split; [done|].
    destruct (written (SingleLabelSearch.loop m false f rd)) as [|r ws];
      [done|].
    destruct Hu as (pre & Hrd & Hpre). exists ((h, ls) :: pre).
    split; [simpl; by f_equal|].
    constructor; [|done]. unfold hits; simpl. done.
Qed.

End single.

(** C3. Single-label search reports [true] exactly when some record's label
    is accepted, which is exactly when it wrote something.  Reusing the
    matcher it writes every accepted record, in stream order; otherwise it
    writes the first accepted record only and leaves everything after that
    record unread. *)
Theorem single_scan_correct (m : matcher) (reuse_match : bool) (rd : reader) :
  let res := SingleLabelSearch.scan m reuse_match rd in
  let accepted := filter (λ r, hits m r) rd in
  (found res = true ↔ ∃ r, r ∈ rd ∧ hits m r = true)
  ∧ (found res = true ↔ written res ≠ [])
  ∧ if reuse_match
    then written res = accepted ∧ unread res = []
    else written res = take 1 accepted
         ∧ match written res with
           | r :: _ =>
               ∃ pre, rd = pre ++ r :: unread res
                      ∧ Forall (λ x, hits m x = false) pre
           | [] => unread res = []
           end.
Proof.
  intros res accepted. subst res accepted. unfold SingleLabelSearch.scan.
  assert (found (SingleLabelSearch.loop m reuse_match false rd) = true
          ↔ ∃ r, r ∈ rd ∧ hits m r = true) as Hfound.
  { rewrite single_loop_found. simpl. rewrite existsb_exists.
    by setoid_rewrite <-list_elem_of_In. }
  assert ((∃ r, r ∈ rd ∧ hits m r = true)
          ↔ filter (λ r, hits m r) rd ≠ []) as Hacc.
  { split.
    - intros (r & Hin & Hr) Hnil.
      eapply (filter_nil_not_elem_of _ _ r); [done| |done].
      by apply Is_true_eq_left.
    - intros Hne. destruct (filter (λ r, hits m r) rd) as [|r l] eqn:Hf; [done|].
      assert (r ∈ filter (λ r, hits m r) rd) as Hr by (rewrite Hf; left).
      apply list_elem_of_filter in Hr as [Hr Hin].
      exists r. split; [done|]. by apply Is_true_eq_true. }
  split; [done|]. destruct reuse_match.
  - destruct (single_loop_reuse m false rd) as [Hw Hu].
    rewrite Hfound, Hacc, Hw. done.
  - destruct (single_loop_first m false rd) as [Hw Hu].
    split; [|done]. rewrite Hfound, Hacc, Hw.
    by destruct (filter (λ r, hits m r) rd).
Qed.

(** ** Every strategy writes records of the stream, each at most once *)

Lemma multi_loop_sublist reuse st (rd : reader) :
  (MultipleLabelSearch.loop reuse st rd).1.1 `sublist_of` rd.
Proof.
  revert st; induction rd as [|r rd IH]; intros st; [done|].
  cbn [MultipleLabelSearch.loop]. unfold MultipleLabelSearch.step.
  destruct (MultipleLabelSearch.first_match r.1 (MultipleLabelSearch.matches st))
    as [idx|].
  - destruct (length _ =? 0)%nat.
    + simpl. apply sublist_skip, sublist_nil_l.
    + specialize (IH (MultipleLabelSearch.mark reuse idx st)).
      destruct (MultipleLabelSearch.loop _ _ rd) as [[ws st''] rest].
      simpl in *. by apply sublist_skip.
  - destruct (length _ =? 0)%nat.
    + simpl. apply sublist_nil_l.
    + specialize (IH st).
      destruct (MultipleLabelSearch.loop _ _ rd) as [[ws st''] rest].
      simpl in *. by apply sublist_cons.
Qed.

Lemma multi_written_sublist ms reuse (rd : reader) :
  written (MultipleLabelSearch.scan ms reuse rd) `sublist_of` rd.
Proof.
  unfold MultipleLabelSearch.scan, MultipleLabelSearch.run.
  pose proof (multi_loop_sublist reuse (MultipleLabelSearch.init ms) rd) as H.
  by destruct (MultipleLabelSearch.loop _ _ rd) as [[ws st] rest].
Qed.

Lemma single_written_sublist m reuse (rd : reader) :
  written (SingleLabelSearch.scan m reuse rd) `sublist_of` rd.
Proof.
  unfold SingleLabelSearch.scan. destruct reuse.
  - destruct (single_loop_reuse m false rd) as [-> _]. apply sublist_filter.
  - destruct (single_loop_first m false rd) as [-> _].
    etrans; [apply sublist_take|apply sublist_filter].
Qed.

Lemma scan_written_sublist (s : search) (rd : reader) :
  written (scan s rd) `sublist_of` rd.
Proof.
  destruct s as [m reuse|ms reuse|idx|start stop]; simpl.
  - apply single_written_sublist.
  - apply multi_written_sublist.
  - unfold IndexSearch.scan.
    assert (∀ pos, written (IndexSearch.loop idx pos rd) `sublist_of` rd) as H.
    { induction rd as [|[h ls] rd IH]; intros pos; [done|].
      simpl. destruct (pos =? idx); simpl.
      - apply sublist_skip, sublist_nil_l.
      - by apply sublist_cons. }
    apply H.
  - unfold RangeSearch.scan.
    assert (∀ pos, written (RangeSearch.loop start stop pos rd) `sublist_of` rd)
      as H.
    { induction rd as [|[h ls] rd IH]; intros pos; [done|].
      simpl. destruct (RangeSearch.at_stop stop (pos + 1)); simpl.
      - apply sublist_nil_l.
      - destruct (RangeSearch.from_start start (pos + 1)); simpl.
        + by apply sublist_skip.
        + by apply sublist_cons. }
    apply H.
Qed.

(** ** The id-only adapter *)

Lemma id_filter_truncated (m : matcher) (value : string) :
  id_filter m value = m (truncated value).
Proof.
  unfold id_filter. f_equal.
  induction value as [|c value IH]; [done|]. simpl.
  destruct (is_sep c); [done|].
  destruct (sep_search value) as [start|]; simpl; by f_equal.
Qed.

Lemma truncated_cut (value : string) :
  ∃ rest,
    value = truncated value +:+ rest
    ∧ sep_free (truncated value) = true
    ∧ match rest with
      | EmptyString => True
      | String c _ => is_sep c = true
      end.
Proof.
  induction value as [|c value (rest & Hv & Hfree & Hrest)].
  - by exists EmptyString.
  - simpl. destruct (is_sep c) eqn:Hc.
    + by exists (String c value).
    + exists rest. simpl. rewrite Hc. simpl. split; [|done].
      change (String c (truncated value) +:+ rest)
        with (String c (truncated value +:+ rest)).
      by f_equal.
Qed.

Lemma truncated_sep_free (value : string) :
  sep_free value = true → truncated value = value.
Proof.
  induction value as [|c value IH]; [done|]. simpl.
  destruct (is_sep c); [done|]. simpl. intros H. by rewrite IH.
Qed.

(** C7. The id-only adapter applies the wrapped matcher to the label cut at
    its first space or tab (the whole label when it has none).  The cut
    is used for matching only: what a label search writes are records of
    the stream, and the writer prints their labels in full.  [ExactMatch]
    of [seq1] rejects the label [seq1 extra info] and accepts it through
    the adapter. *)
Theorem id_filter_correct (m : matcher) (value : string) :
  id_filter m value = m (truncated value)
  ∧ (∃ rest,
       value = truncated value +:+ rest
       ∧ sep_free (truncated value) = true
       ∧ match rest with
         | EmptyString => True
         | String c _ => is_sep c = true
         end)
  ∧ (if sep_free value then truncated value = value else True)
  ∧ (∀ reuse rd, written (SingleLabelSearch.scan (id_filter m) reuse rd)
                   `sublist_of` rd)
  ∧ (∀ ms reuse rd,
       written (MultipleLabelSearch.scan (id_filter <$> ms) reuse rd)
         `sublist_of` rd)
  ∧ (∀ r : record, head (FastaWriter.write true r) = Some (">" +:+ r.1 +:+ "
"))
  ∧ ExactMatch "seq1" "seq1 extra info" = false
  ∧ id_filter (ExactMatch "seq1") "seq1 extra info" = true
  ∧ FastaWriter.output true
      (written (SingleLabelSearch.scan (id_filter (ExactMatch "seq1")) false
                  [("seq0", ["TT"]); ("seq1 extra info", ["ACGT"])]))
    = [">seq1 extra info
"; "ACGT
"].
Proof.
  split; [apply id_filter_truncated|].
  split; [apply truncated_cut|].
  split; [destruct (sep_free value) eqn:H; [by apply truncated_sep_free|done]|].
  split; [intros; apply single_written_sublist|].
  split; [intros; apply multi_written_sublist|].
  repeat split.
Qed.

(** ** Word patterns *)

Section word_search.
Variable w : list ascii.

Lemma accepts_tail bos s :
  Re.accepts word_tail bos s (λ _ _, true) = true ↔ boundary s.
Proof.
  unfold boundary. destruct s as [|c [|c' s]]; simpl.
  - split; [by left|done].
  - rewrite !andb_true_r. split.
    + intros [Hc|Hc]%orb_true_iff.
      * right. exists c, []. split; [done|]. by apply negb_true_iff.
      * right. exists c, []. split; [done|].
        apply Ascii.eqb_eq in Hc as ->. reflexivity.
    + intros [[=]|(c0 & s0 & [= <- <-] & Hc)]. by rewrite Hc.
  - rewrite !andb_true_r, orb_false_r. split.
    + intros Hc. right. exists c, (c' :: s). split; [done|].
      by apply negb_true_iff.
    + intros [[=]|(c0 & s0 & [= <- <-] & Hc)]. by rewrite Hc.
Qed.

Lemma accepts_lits (v : list ascii) bos s :
  Re.accepts (lits v word_tail) bos s (λ _ _, true) = true ↔
  ∃ post, s = v ++ post ∧ boundary post.
Proof.
  revert bos s; induction v as [|c v IH]; intros bos s.
  - rewrite accepts_tail. simpl. naive_solver.
  - cbn [lits foldr Re.accepts]. fold (lits v word_tail).
    destruct s as [|a s].
    + split; [done|]. by intros (post & [=] & _).
    + cbn [Re.cclass_match]. rewrite andb_true_iff, IH, Ascii.eqb_eq. split.
      * intros (-> & post & -> & Hpost). by exists post.
      * intros (post & [= -> ->] & Hpost). split; [done|]. by exists post.
Qed.

Lemma accepts_word_regex bos s :
  Re.accepts (word_regex w) bos s (λ _ _, true) = true ↔
  (bos = true ∧ ∃ post, s = w ++ post ∧ boundary post)
  ∨ ∃ c post, s = c :: w ++ post ∧ Re.is_word c = false ∧ boundary post.
Proof.
  unfold word_regex. cbn [Re.accepts non_word].
  rewrite orb_true_iff, andb_true_iff, accepts_lits.
  apply or_iff_compat_l. destruct s as [|c s].
  - split; [done|]. by intros (c & post & [=] & _).
  - cbn [Re.cclass_match]. rewrite andb_true_iff, accepts_lits. simpl. split.
    + intros (Hc%negb_true_iff & post & -> & Hpost). by exists c, post.
    + intros (c' & post & [= <- ->] & Hc & Hpost).
      split; [by rewrite Hc|]. by exists post.
Qed.

Lemma search_word_regex bos s :
  Re.search_from (word_regex w) bos s = true ↔
  (bos = true ∧ ∃ post, s = w ++ post ∧ boundary post)
  ∨ ∃ pre c post,
      s = pre ++ c :: w ++ post ∧ Re.is_word c = false ∧ boundary post.
Proof.
  revert bos; induction s as [|a s IH]; intros bos.
  - cbn [Re.search_from]. rewrite orb_false_r, accepts_word_regex. split.
    + intros [H|(c & post & [=] & _)]. by left.
    + intros [H|(pre & c & post & Hs & _)]; [by left|]. by destruct pre.
  - cbn [Re.search_from]. rewrite orb_true_iff, accepts_word_regex, IH. split.
    + intros [[H|(c & post & Hs & Hc & Hpost)]|[[[=] _]|H]].
      * by left.
      * right. by exists [], c, post.
      * destruct H as (pre & c & post & -> & Hc & Hpost).
        right. by exists (a :: pre), c, post.
    + intros [H|(pre & c & post & Hs & Hc & Hpost)]; [by left; left|].
      destruct pre as [|a' pre]; simpl in Hs.
      * left; right. by exists c, post.
      * injection Hs as <- ->. right; right. by exists pre, c, post.
Qed.

Lemma search_delimited (L : list ascii) :
  Re.search_from (word_regex w) true L = true ↔ delimited w L.
Proof.
  rewrite search_word_regex. unfold delimited, boundary. split.
  - intros [[_ (post & -> & Hpost)]|(pre & c & post & -> & Hc & Hpost)].
    + exists [], post. split; [done|]. split; [by left|done].
    + exists (pre ++ [c]), post. split; [by rewrite <-app_assoc|].
      split; [right; by exists pre, c|done].
  - intros (pre & post & -> & [->|(pre' & c & -> & Hc)] & Hpost).
    + left. split; [done|]. by exists post.
    + right. exists pre', c, post. split; [by rewrite <-app_assoc|done].
Qed.

End word_search.

(** Compiling the wrapped pattern of a plain word. *)

Lemma list_ascii_of_string_app (a b : string) :
  list_ascii_of_string (a +:+ b)
  = list_ascii_of_string a ++ list_ascii_of_string b.
Proof. induction a as [|c a IH]; [done|]. simpl. by f_equal. Qed.

Lemma word_char_plain (c : ascii) :
  Re.is_word c = true →
  Re.is_quant c = false
  ∧ (Ascii.eqb c "|" || Ascii.eqb c ")")%char = false
  ∧ Ascii.eqb c "(" = false ∧ Ascii.eqb c "\" = false
  ∧ Ascii.eqb c "." = false ∧ Ascii.eqb c "^" = false
  ∧ Ascii.eqb c "$" = false ∧ Ascii.eqb c "[" = false
  ∧ Ascii.eqb c "{" = false.
Proof.
  destruct c as [[] [] [] [] [] [] [] []]; vm_compute; intros H;
    first [discriminate H | repeat split].
Qed.

Lemma parse_seq_S n c p :
  Re.parse_seq (S n) (c :: p)
  = if (Ascii.eqb c "|" || Ascii.eqb c ")")%char then Some (Re.Eps, c :: p)
    else
      '(a, p1) ← Re.parse_atom n (c :: p);
      '(a', p2) ← Re.parse_repeat a p1;
      '(r, p3) ← Re.parse_seq n p2;
      Some (Re.Cat a' r, p3).
Proof. reflexivity. Qed.

Lemma parse_atom_word n c p :
  Re.is_word c = true →
  Re.parse_atom (S n) (c :: p) = Some (Re.Chr (Re.CLit c), p).
Proof.
  intros (Hq & _ & H1 & H2 & H3 & H4 & H5 & H6 & H7)%word_char_plain.
  cbn [Re.parse_atom]. by rewrite H1, H2, H3, H4, H5, Hq, H6, H7.
Qed.

Lemma parse_repeat_plain a c p :
  Re.is_quant c = false → Ascii.eqb c "{" = false →
  Re.parse_repeat a (c :: p) = Some (a, c :: p).
Proof. intros Hq Hb. unfold Re.parse_repeat. by rewrite Hq, Hb. Qed.

Lemma parse_seq_lits (w rest : list ascii) n :
  forallb Re.is_word w = true →
  opens_group rest →
  Re.parse_seq (length w + S n) (w ++ rest)
  = (λ rq, (lits w rq.1, rq.2)) <$> Re.parse_seq (S n) rest.
Proof.
  intros Hw Hrest. induction w as [|c w IH].
  - simpl (length _ + _)%nat. simpl ([] ++ _).
    by destruct (Re.parse_seq (S n) rest) as [[r q]|].
  - apply andb_true_iff in Hw as [Hc Hw]. specialize (IH Hw).
    change (length (c :: w) + S n)%nat with (S (length w + S n)).
    change ((c :: w) ++ rest) with (c :: (w ++ rest)).
    rewrite parse_seq_S.
    destruct (word_char_plain c Hc) as (_ & -> & _).
    rewrite Nat.add_succ_r at 1. rewrite parse_atom_word by done.
    cbn [mbind option_bind].
    assert (Re.parse_repeat (Re.Chr (Re.CLit c)) (w ++ rest)
            = Some (Re.Chr (Re.CLit c), w ++ rest)) as ->.
    { destruct w as [|c' w].
      - destruct Hrest as (q & ->). by apply parse_repeat_plain.
      - apply andb_true_iff in Hw as [Hc' _].
        destruct (word_char_plain c' Hc') as (Hq & _ & _ & _ & _ & _ & _ & _ & Hb).
        by apply parse_repeat_plain. }
    cbn [mbind option_bind]. rewrite IH.
    by destruct (Re.parse_seq (S n) rest) as [[r q]|].
Qed.

Lemma parse_atom_opening n (q : list ascii) :
  (6 ≤ n)%nat →
  Re.parse_atom n (list_ascii_of_string "(^|\W)" ++ q)
  = Some (Re.Alt (Re.Cat Re.Bol Re.Eps) (Re.Cat non_word Re.Eps), q).
Proof. intros Hn. do 6 (destruct n as [|n]; [lia|]). reflexivity. Qed.

Lemma parse_seq_closing n :
  (8 ≤ n)%nat →
  Re.parse_seq n (list_ascii_of_string "(\W|$)") = Some (word_tail, []).
Proof. intros Hn. do 8 (destruct n as [|n]; [lia|]). reflexivity. Qed.

Lemma compile_plain_word (p : string) :
  plain_word p = true →
  Re.compile ("(^|\W)" +:+ p +:+ "(\W|$)")
  = Some (word_regex (list_ascii_of_string p)).
Proof.
  unfold plain_word, Re.compile. intros Hw. cbv zeta.
  rewrite !list_ascii_of_string_app.
  set (w := list_ascii_of_string p) in *.
  set (n := (36 + 2 * length w)%nat).
  replace (3 * length (list_ascii_of_string "(^|\W)"
                       ++ w ++ list_ascii_of_string "(\W|$)") + 3)%nat
    with (S (S (length w + S n)))
    by (rewrite !length_app; simpl; lia).
  assert (Re.parse_seq (S (length w + S n))
            (list_ascii_of_string "(^|\W)"
             ++ w ++ list_ascii_of_string "(\W|$)")
          = Some (word_regex w, [])) as Hseq.
  { change (list_ascii_of_string "(^|\W)" ++ ?q)
      with ("("%char :: (list_ascii_of_string "^|\W)" ++ q)).
    rewrite parse_seq_S. cbn [Ascii.eqb Bool.eqb orb].
    change ("("%char :: (list_ascii_of_string "^|\W)" ++ ?q))
      with (list_ascii_of_string "(^|\W)" ++ q).
    rewrite parse_atom_opening by lia. cbn [mbind option_bind].
    assert (Re.parse_repeat
              (Re.Alt (Re.Cat Re.Bol Re.Eps) (Re.Cat non_word Re.Eps))
              (w ++ list_ascii_of_string "(\W|$)")
            = Some (Re.Alt (Re.Cat Re.Bol Re.Eps) (Re.Cat non_word Re.Eps),
                    w ++ list_ascii_of_string "(\W|$)")) as ->.
    { destruct w as [|c w']; [done|].
      apply andb_true_iff in Hw as [Hc _].
      destruct (word_char_plain c Hc) as (Hq & _ & _ & _ & _ & _ & _ & _ & Hb).
      by apply parse_repeat_plain. }
    cbn [mbind option_bind].
    rewrite parse_seq_lits by (done || by eexists).
    rewrite parse_seq_closing by lia. done. }
  cbn [Re.parse_alt]. fold Re.parse_seq. rewrite Hseq. done.
Qed.

(** Two plain words separated by a bar. *)











(** The wrapping is textual: around a pattern with an alternative at its top
    level the opening bracket goes with the first alternative and the
    closing one with the last. *)
Example word_regexp_alternative :
  (λ m : matcher, m "ab") <$> WordRegularExpressionMatch "a|b" = Some true
  ∧ (λ m : matcher, m "ab") <$> WordRegularExpressionMatch "(a|b)" = Some false
  ∧ (λ m : matcher, m "a b") <$> WordRegularExpressionMatch "(a|b)" = Some true.
Proof. repeat split; vm_compute; reflexivity. Qed.

(** Repetition operators inside a wrapped pattern. *)
Example word_regexp_repetition :
  (λ m : matcher, m "the caat sat") <$> WordRegularExpressionMatch "ca+t"
  = Some true
  ∧ (λ m : matcher, m "the ct sat") <$> WordRegularExpressionMatch "ca+t"
    = Some false
  ∧ (λ m : matcher, m "the ct sat") <$> WordRegularExpressionMatch "ca*t"
    = Some true
  ∧ (λ m : matcher, m "the caat sat") <$> WordRegularExpressionMatch "ca?t"
    = Some false
  ∧ (λ m : matcher, m "the cat sat") <$> WordRegularExpressionMatch "ca?t"
    = Some true.
Proof. repeat split; vm_compute; reflexivity. Qed.

(** ** An omitted start *)

Lemma range_loop_from_zero stop pos (rd : reader) :
  0 ≤ pos →
  RangeSearch.loop None stop pos rd = RangeSearch.loop (Some 0) stop pos rd.
Proof.
  revert pos; induction rd as [|[h ls] rd IH]; intros pos Hpos.
  - simpl. unfold RangeSearch.exhausted.
    by replace (pos <? 0) with false by (symmetry; apply Z.ltb_ge; lia).
  - cbn [RangeSearch.loop RangeSearch.from_start].
    replace (0 <=? pos + 1) with true by (symmetry; apply Z.leb_le; lia).
    by rewrite IH by lia.
Qed.

(** Omitting the start is the same as starting at 0 on every stream that
    holds a record, and on the empty stream when a positive stop is given. *)
Lemma range_omitted_start_agrees stop (rd : reader) :
  rd ≠ [] ∨ (∃ e, stop = Some e ∧ 0 < e) →
  RangeSearch.scan None stop rd = RangeSearch.scan (Some 0) stop rd.
Proof.
  unfold RangeSearch.scan. destruct rd as [|[h ls] rd].
  - intros [?|(e & -> & He)]; [done|]. simpl. unfold RangeSearch.exhausted.
    simpl. by replace (-1 <? e - 1) with true by (symmetry; apply Z.ltb_lt; lia).
  - intros _. cbn [RangeSearch.loop RangeSearch.from_start]. simpl (-1 + 1).
    change (0 <=? 0) with true. cbv iota.
    by rewrite range_loop_from_zero by lia.
Qed.

(** C5. On the empty stream with no stop given, an omitted start reports
    [true] where a start of 0 reports [false]: the argument [@:] ends the
    process normally and [@0:] ends it with the missing-blocks message. *)
Theorem range_omitted_start_empty_stream :
  let o := Options false false false false false false false in
  parse_range "@:" = inr (range_spec_of None None)
  ∧ parse_range "@0:" = inr (range_spec_of (Some 0) None)
  ∧ RangeSearch.scan None None [] = ScanResult true [] []
  ∧ RangeSearch.scan (Some 0) None [] = ScanResult false [] []
  ∧ status (main o ["@:"] (λ _, None) []) = inr ()
  ∧ status (main o ["@0:"] (λ _, None) [])
    = exit "Some FASTA blocks are missing.".
Proof. repeat split. Qed.

(** ** Exit behaviour *)

(** C9. Once the command line has produced a strategy, the process fails
    exactly when the scan reports [false] and missing blocks are not
    ignored; with [-m] it always ends normally.  What is printed does not
    depend on either. *)
Theorem exit_status_correct (o : options) (args : list string) (fs : files)
    (stdin : reader) (s : search) :
  check_args o args ≫= select o fs = inr s →
  let r := main o args fs stdin in
  (failed r ↔ found (scan s stdin) = false ∧ ignore_missing o = false)
  ∧ (if ignore_missing o then status r = inr () else True)
  ∧ stdout r = FastaWriter.output (negb (no_headers o)) (written (scan s stdin)).
Proof.
  intros Hs r. subst r. unfold main, failed. rewrite Hs.
  destruct (found (scan s stdin)), (ignore_missing o); simpl;
    (split; [|done]); split.
  all: try (by intros [e [=]]).
  all: try (by intros [[=] [=]]).
  all: try (by intros [[=] _]).
  all: try (by intros [_ [=]]).
  all: try done.
  intros _. by eexists.
Qed.

Lemma exit_status_correct_witness :
  let o := Options false false false false false false false in
  let stdin := [("A", ["aa"]); ("B", ["bb"])] in
  let r := main o ["@10"] (λ _, None) stdin in
  (failed r ↔ found (scan (Index 10) stdin) = false ∧ ignore_missing o = false)
  ∧ (if ignore_missing o then status r = inr () else True)
  ∧ stdout r
    = FastaWriter.output (negb (no_headers o)) (written (scan (Index 10) stdin)).
Proof.
  apply (exit_status_correct (Options false false false false false false false)
           ["@10"] (λ _, None) _ (Index 10)).
  reflexivity.
Defined.

(** ** Labels from a file *)

Section labels.
Variable filename : string.

Lemma fresh_labels_cons acc line lines :
  fresh_labels acc (line :: lines) ↔
  (safe_rstrip line ∉ acc)
  ∧ fresh_labels ({[safe_rstrip line]} ∪ acc) lines.
Proof.
  unfold fresh_labels. rewrite fmap_cons, NoDup_cons, Forall_cons.
  rewrite !Forall_forall. split.
  - intros [[Hnin Hnd] [Hacc Hall]]. repeat split; [done..|].
    intros l Hl. specialize (Hall l Hl). set_solver.
  - intros [Hacc [Hnd Hall]]. repeat split; [|done..|].
    + intros Hin. specialize (Hall _ Hin). set_solver.
    + intros l Hl. specialize (Hall l Hl). set_solver.
Qed.

Lemma load_loop_fresh acc lines :
  fresh_labels acc lines →
  load_loop filename acc lines
  = inr (list_to_set (safe_rstrip <$> lines) ∪ acc).
Proof.
  revert acc; induction lines as [|line lines IH]; intros acc.
  - intros _. simpl. f_equal. set_solver.
  - intros [Hacc Hrest]%fresh_labels_cons. simpl.
    rewrite decide_False by done. rewrite IH by done.
    f_equal. set_solver.
Qed.

Lemma load_loop_duplicate acc lines :
  ¬ fresh_labels acc lines →
  ∃ label,
    (label ∈ safe_rstrip <$> lines)
    ∧ load_loop filename acc lines
      = exit ("Duplicated label '" +:+ label +:+ "' in file " +:+ filename).
Proof.
  revert acc; induction lines as [|line lines IH]; intros acc Hdup.
  - destruct Hdup. split; simpl; constructor.
  - simpl. destruct (decide (safe_rstrip line ∈ acc)) as [Hin|Hnin].
    + exists (safe_rstrip line). split; [left|done].
    + destruct (IH ({[safe_rstrip line]} ∪ acc)) as (label & Hl & Hload).
      { intros Hrest. apply Hdup, fresh_labels_cons. done. }
      exists label. split; [by right|done].
Qed.

End labels.

(** C8 (as the code has it). A label file that cannot be read, that has no
    line, or in which a label comes twice ends the process with a message
    before anything is scanned or printed; any other file yields the set of
    its labels, which is not empty and holds each label once.  A label is a
    line without its terminator, so a blank line gives the empty label. *)
Theorem load_labels_correct (fs : files) (filename : string) :
  match fs filename with
  | None =>
      load_labels fs filename = exit ("Error reading from file " +:+ filename)
  | Some lines =>
      let labels := safe_rstrip <$> lines in
      if decide (lines = []) then
        load_labels fs filename = exit ("No label in file " +:+ filename)
      else if decide (NoDup labels) then
        load_labels fs filename = inr (list_to_set labels)
        ∧ list_to_set labels ≠@{gset string} ∅
        ∧ size (list_to_set labels : gset string) = length lines
      else
        ∃ label,
          (label ∈ labels)
          ∧ load_labels fs filename
            = exit ("Duplicated label '" +:+ label +:+ "' in file "
                    +:+ filename)
  end
  ∧ ∀ o stdin e,
      from_file o = true → is_range filename = false →
      regexp o && word_regexp o = false →
      load_labels fs filename = inl e →
      main o [filename] fs stdin = Run (inl e) [] stdin.
Proof.
  split.
  - unfold load_labels. destruct (fs filename) as [lines|]; [|done].
    cbv zeta. destruct (decide (lines = [])) as [->|Hne]; [done|].
    destruct (decide (NoDup (safe_rstrip <$> lines))) as [Hnd|Hdup].
    + assert (fresh_labels ∅ lines) as Hfresh.
      { split; [done|]. apply Forall_forall. set_solver. }
      rewrite (load_loop_fresh filename ∅ lines Hfresh).
      rewrite (right_id_L ∅ (∪)).
      assert (size (list_to_set (safe_rstrip <$> lines) : gset string)
              = length lines) as Hsize.
      { rewrite size_list_to_set by done. by rewrite length_fmap. }
      split; [|split; [|done]].
      * simpl. rewrite Hsize. by destruct lines.
      * intros Hempty. rewrite Hempty, size_empty in Hsize.
        by destruct lines.
    + destruct (load_loop_duplicate filename ∅ lines) as (label & Hl & Hload).
      { by intros [Hnd _]. }
      exists label. split; [done|]. by rewrite Hload.
  - intros o stdin e Hfile Hrange Hrx Hload. unfold main, check_args, select.
    rewrite Hrx, Hrange. simpl. rewrite Hrange.
    destruct (matcher_class o) as [mc reuse]. rewrite Hfile, Hload. done.
Qed.

Lemma load_labels_correct_witness :
  let fs : files := λ _, Some ["a
"; "b
"; "a
"] in
  let o := Options false false false true false false false in
  main o ["labels.txt"] fs [("a", ["AC"])]
  = Run (exit "Duplicated label 'a' in file labels.txt") [] [("a", ["AC"])].
Proof.
  intros fs o. apply (proj2 (load_labels_correct fs "labels.txt")); reflexivity.
Defined.

(** C8 (as stated). The labels of a loaded file need not be non-empty: a file
    made of one blank line yields the set holding the empty label. *)
Lemma load_labels_blank_line_counterexample :
  ∃ labels : gset string,
    load_labels (λ _, Some ["
"]) "labels.txt" = inr labels
    ∧ ¬ (∀ l, l ∈ labels → l ≠ "").
Proof.
  exists {[ "" ]}. split; [reflexivity|].
  intros H. apply (H ""); [by apply elem_of_singleton|done].
Qed.

(** ** Multi-label search: the inner loop *)

Lemma first_match_spec (h : string) (ms : list matcher) :
  match MultipleLabelSearch.first_match h ms with
  | Some i =>
      (∃ m, ms !! i = Some m ∧ m h = true)
      ∧ Forall (λ m, m h = false) (take i ms)
  | None => Forall (λ m, m h = false) ms
  end.
Proof.
  induction ms as [|m ms IH]; simpl; [done|].
  destruct (m h) eqn:Hm.
  - split; [by exists m|]. simpl. constructor.
  - destruct (MultipleLabelSearch.first_match h ms) as [i|]; simpl.
    + destruct IH as [Hi Hbefore]. split; [done|]. by constructor.
    + by constructor.
Qed.

Lemma first_match_any_hit (ms : list matcher) (r : record) :
  any_hit ms r = bool_decide (is_Some (MultipleLabelSearch.first_match r.1 ms)).
Proof.
  unfold any_hit. induction ms as [|m ms IH]; simpl; [done|].
  unfold hits at 1. destruct (m r.1); simpl; [done|]. rewrite IH.
  by destruct (MultipleLabelSearch.first_match r.1 ms).
Qed.

Lemma step_writes reuse st (r : record) :
  (MultipleLabelSearch.step reuse st r).1
  = if any_hit (MultipleLabelSearch.matches st) r then [r] else [].
Proof.
  unfold MultipleLabelSearch.step. rewrite first_match_any_hit.
  by destruct (MultipleLabelSearch.first_match _ _).
Qed.

(** C10. What a multi-label scan writes is a sub-sequence of the stream, so
    no record is written twice.  For one record the inner loop stops at the
    first matcher that accepts the label, every matcher before it having
    rejected it, and writes the record once however many matchers accept
    it. *)
Theorem multi_scan_writes_once (ms : list matcher) (reuse_matches : bool)
    (rd : reader) :
  written (MultipleLabelSearch.scan ms reuse_matches rd) `sublist_of` rd
  ∧ (∀ st r,
       (MultipleLabelSearch.step reuse_matches st r).1
       = if any_hit (MultipleLabelSearch.matches st) r then [r] else [])
  ∧ (∀ h,
       match MultipleLabelSearch.first_match h ms with
       | Some i =>
           (∃ m, ms !! i = Some m ∧ m h = true)
           ∧ Forall (λ m, m h = false) (take i ms)
       | None => Forall (λ m, m h = false) ms
       end)
  ∧ written (MultipleLabelSearch.scan
               [ExactMatch "ab"; id_filter (ExactMatch "ab"); ExactMatch "c"]
               true [("ab", ["ACGT"]); ("c", ["TT"])])
    = [("ab", ["ACGT"]); ("c", ["TT"])].
Proof.
  split; [apply multi_written_sublist|].
  split; [intros; apply step_writes|].
  split; [intros; apply first_match_spec|].
  reflexivity.
Qed.

(** ** Multi-label search with reusable matchers *)

Lemma unique_hit_first (ms : list matcher) (r : record) i m :
  (length (filter (λ m : matcher, hits m r) ms) ≤ 1)%nat →
  ms !! i = Some m → hits m r = true →
  MultipleLabelSearch.first_match r.1 ms = Some i.
Proof.
  revert i; induction ms as [|m0 ms IH]; intros i Hone Hi Hm; [done|].
  simpl. destruct (m0 r.1) eqn:Hm0.
  - destruct i as [|i]; [done|]. exfalso.
    rewrite filter_cons_True in Hone by hit_with Hm0.
    assert (m ∈ filter (λ m : matcher, hits m r) ms) as Hin.
    { apply list_elem_of_filter. split; [by apply Is_true_eq_left|].
      by eapply list_elem_of_lookup_2. }
    destruct (filter (λ m : matcher, hits m r) ms); [by inversion Hin|].
    simpl in Hone. lia.
  - rewrite filter_cons_False in Hone by hit_with Hm0.
    destruct i as [|i].
    + simpl in Hi. injection Hi as ->. unfold hits in Hm. congruence.
    + by rewrite (IH i).
Qed.

Lemma all_lookup (fl : list bool) :
  MultipleLabelSearch.all fl = true ↔
  ∀ i, (i < length fl)%nat → fl !! i = Some true.
Proof.
  unfold MultipleLabelSearch.all. induction fl as [|b fl IH]; simpl.
  - split; [|done]. intros _ i Hi. lia.
  - rewrite andb_true_iff, IH. split.
    + intros [Hb Hall] [|i] Hi; simpl; [by rewrite Hb|]. apply Hall. lia.
    + intros Hall. split.
      * specialize (Hall 0%nat). simpl in Hall.
        assert (Some b = Some true) as [= ->] by (apply Hall; lia). done.
      * intros i Hi. apply (Hall (S i)). lia.
Qed.

Lemma multi_loop_reuse (ms : list matcher) (fl : list bool) (rd : reader) :
  ms ≠ [] →
  let res := MultipleLabelSearch.loop true (MultipleLabelSearch.State ms fl) rd in
  res.1.1 = filter (λ r, any_hit ms r) rd
  ∧ res.2 = []
  ∧ length (MultipleLabelSearch.flags res.1.2) = length fl
  ∧ ∀ i, MultipleLabelSearch.flags res.1.2 !! i = Some true ↔
         fl !! i = Some true
         ∨ ((i < length fl)%nat
            ∧ ∃ r, r ∈ rd ∧ MultipleLabelSearch.first_match r.1 ms = Some i).
Proof.
  intros Hms. revert fl; induction rd as [|r rd IH]; intros fl.
  - simpl. repeat split; [by left|]. intros [?|(_ & r & Hr & _)]; [done|].
    by apply elem_of_nil in Hr.
  - cbn [MultipleLabelSearch.loop]. unfold MultipleLabelSearch.step.
    pose proof (first_match_any_hit ms r) as Hany.
    cbn [MultipleLabelSearch.matches].
    destruct (MultipleLabelSearch.first_match r.1 ms) as [idx|] eqn:Hfm.
    + unfold MultipleLabelSearch.mark.
      cbn [MultipleLabelSearch.matches MultipleLabelSearch.flags].
      destruct (length ms =? 0)%nat eqn:Hlen.
      { apply Nat.eqb_eq in Hlen. by destruct ms. }
      specialize (IH (<[idx:=true]> fl)).
      destruct (MultipleLabelSearch.loop true _ rd) as [[ws st] rest].
      cbn [fst snd] in *. destruct IH as (-> & -> & Hl & Hfl).
      rewrite length_insert in Hl.
      rewrite filter_cons_True by (by rewrite Hany).
      do 3 (split; [done|]). intros i. rewrite Hfl, length_insert.
      rewrite list_lookup_insert_Some. split.
      * intros [[(-> & _ & Hi)|[_ Hi]]|(Hi & r' & Hr' & Hf)].
        -- right. split; [done|]. exists r. split; [left|done].
        -- by left.
        -- right. split; [done|]. exists r'. split; [by right|done].
      * intros [Hi|(Hi & r' & [Heq|Hr']%elem_of_cons & Hf)].
        -- destruct (decide (idx = i)) as [->|Hne].
           ++ left; left. repeat split. by eapply lookup_lt_Some.
           ++ left; right. done.
        -- subst r'. injection (eq_trans (eq_sym Hfm) Hf) as ->. left; left. done.
        -- right. split; [done|]. by exists r'.
    + cbn [MultipleLabelSearch.matches MultipleLabelSearch.flags].
      destruct (length ms =? 0)%nat eqn:Hlen.
      { apply Nat.eqb_eq in Hlen. by destruct ms. }
      specialize (IH fl).
      destruct (MultipleLabelSearch.loop true _ rd) as [[ws st] rest].
      cbn [fst snd] in *. destruct IH as (-> & -> & Hl & Hfl).
      rewrite filter_cons_False by (rewrite Hany; exact id).
      do 3 (split; [done|]). intros i. rewrite Hfl. split.
      * intros [Hi|(Hi & r' & Hr' & Hf)]; [by left|].
        right. split; [done|]. exists r'. split; [by right|done].
      * intros [Hi|(Hi & r' & [Heq|Hr']%elem_of_cons & Hf)]; [by left|..].
        -- subst r'. by pose proof (eq_trans (eq_sym Hfm) Hf).
        -- right. split; [done|]. by exists r'.
Qed.

(** ** Multi-label search with matchers used once *)

Lemma unmatched_app (a b : reader) (m : matcher) :
  unmatched (a ++ b) m = unmatched a m && unmatched b m.
Proof. unfold unmatched. by rewrite forallb_app. Qed.

Lemma unmatched_snoc (before : reader) (r : record) (m : matcher) :
  unmatched (before ++ [r]) m = unmatched before m && negb (hits m r).
Proof. rewrite unmatched_app. simpl. by rewrite andb_true_r. Qed.

Lemma live_step (ms : list matcher) (before : reader) (r : record) :
  filter (λ m : matcher, unmatched (before ++ [r]) m) ms
  = filter (λ m : matcher, ¬ hits m r)
      (filter (λ m : matcher, unmatched before m) ms).
Proof.
  rewrite list_filter_filter. apply list_filter_iff. intros m.
  rewrite unmatched_snoc. destruct (unmatched before m), (hits m r); simpl;
    naive_solver.
Qed.

Lemma live_hits_le (ms : list matcher) (before : reader) (r : record) :
  (length (filter (λ m : matcher, hits m r)
             (filter (λ m : matcher, unmatched before m) ms))
   ≤ length (filter (λ m : matcher, hits m r) ms))%nat.
Proof.
  rewrite list_filter_filter.
  rewrite (list_filter_iff _ (λ m : matcher, unmatched before m ∧ hits m r))
    by naive_solver.
  rewrite <-list_filter_filter. apply length_filter.
Qed.

Lemma filter_unique_hit (live : list matcher) (r : record) idx :
  MultipleLabelSearch.first_match r.1 live = Some idx →
  (length (filter (λ m : matcher, hits m r) live) ≤ 1)%nat →
  filter (λ m : matcher, ¬ hits m r) live = delete idx live.
Proof.
  revert idx; induction live as [|m live IH]; intros idx; [done|].
  simpl. destruct (m r.1) eqn:Hm.
  - intros [= <-]. rewrite filter_cons_True by hit_with Hm.
    rewrite filter_cons_False by (intros H; apply H; hit_with Hm).
    simpl. intros Hone. apply filter_all, Forall_forall. intros m' Hin Hhit.
    assert (m' ∈ filter (λ m : matcher, hits m r) live) as Hin'
      by (by apply list_elem_of_filter).
    destruct (filter (λ m : matcher, hits m r) live); [by inversion Hin'|].
    simpl in Hone. lia.
  - destruct (MultipleLabelSearch.first_match r.1 live) as [i|]; [|done].
    intros [= <-]. rewrite filter_cons_False by hit_with Hm.
    rewrite filter_cons_True by hit_with Hm.
    intros Hone. simpl. f_equal. by apply IH.
Qed.

Lemma delete_replicate {A B} (l : list A) i (x : B) :
  is_Some (l !! i) →
  delete i (replicate (length l) x) = replicate (length (delete i l)) x.
Proof.
  revert i; induction l as [|a l IH]; intros [|i] [y Hy]; try done.
  simpl. f_equal. apply IH. by exists y.
Qed.

Lemma live_nil_targets_matched (ms : list matcher) (rd : reader) :
  filter (λ m : matcher, unmatched rd m) ms = [] ↔ targets_matched ms rd.
Proof.
  unfold targets_matched. induction ms as [|m ms IH]; [done|].
  rewrite Forall_cons, <-IH, filter_cons. clear IH.
  assert (unmatched rd m = false ↔ ∃ r, r ∈ rd ∧ hits m r = true) as Hm.
  { unfold unmatched. induction rd as [|r rd IH]; simpl.
    - split; [done|]. intros (r & Hr & _). by apply elem_of_nil in Hr.
    - rewrite andb_false_iff, IH, negb_false_iff. split.
      + intros [Hr|(r' & Hr' & Hhit)]; [exists r|exists r'];
          (split; [|done]); [left|by right].
      + intros (r' & [->|Hr']%elem_of_cons & Hhit); [by left|].
        right. by exists r'. }
  destruct (unmatched rd m) eqn:Hu.
  - rewrite decide_True by done. split; [done|].
    intros [H%Hm _]. done.
  - rewrite decide_False by exact id. rewrite <-Hm. naive_solver.
Qed.

Lemma first_hits_after_done (ms : list matcher) (before rd : reader) :
  filter (λ m : matcher, unmatched before m) ms = [] →
  first_hits_after ms before rd = [].
Proof.
  revert before; induction rd as [|r rd IH]; intros before Hnil; [done|].
  simpl. rewrite IH.
  - assert (is_first_hit ms before r = false) as ->; [|done].
    unfold is_first_hit. apply not_true_is_false.
    intros (m & Hin & [Hhit Hun]%andb_true_iff)%existsb_exists.
    apply list_elem_of_In in Hin.
    eapply (filter_nil_not_elem_of _ _ m); [exact Hnil| |done].
    by apply Is_true_eq_left.
  - rewrite live_step, Hnil. done.
Qed.

Lemma multi_loop_exact (ms : list matcher) (rd before : reader) :
  at_most_one_target ms rd →
  let live := filter (λ m : matcher, unmatched before m) ms in
  let res :=
    MultipleLabelSearch.loop false
      (MultipleLabelSearch.State live (replicate (length live) false)) rd in
  ∃ consumed,
    rd = consumed ++ res.2
    ∧ res.1.1 = first_hits_after ms before rd
    ∧ MultipleLabelSearch.matches res.1.2
      = filter (λ m : matcher, unmatched (before ++ consumed) m) ms
    ∧ MultipleLabelSearch.flags res.1.2
      = replicate (length (MultipleLabelSearch.matches res.1.2)) false
    ∧ (res.2 ≠ [] → MultipleLabelSearch.matches res.1.2 = [])
    ∧ (live ≠ [] →
       ∀ c r, consumed = c ++ [r] →
              filter (λ m : matcher, unmatched (before ++ c) m) ms ≠ []).
Proof.
  revert before; induction rd as [|r rd IH]; intros before Hone live res.
  - exists []. subst res live. simpl. rewrite app_nil_r.
    do 5 (split; [done|]). intros _ c r Hc. by destruct c.
  - apply Forall_cons in Hone as [Hr Hone'].
    assert ((length (filter (λ m : matcher, hits m r) live) ≤ 1)%nat)
      as Hlive_one.
    { etrans; [apply live_hits_le|done]. }
    specialize (IH (before ++ [r]) Hone'). cbv zeta in IH.
    subst res. cbn [MultipleLabelSearch.loop].
    unfold MultipleLabelSearch.step. cbn [MultipleLabelSearch.matches].
    pose proof (first_match_spec r.1 live) as Hspec.
    destruct (MultipleLabelSearch.first_match r.1 live) as [idx|] eqn:Hfm.
    + destruct Hspec as [(m & Hidx & Hm) _].
      assert (delete idx live
              = filter (λ m : matcher, unmatched (before ++ [r]) m) ms)
        as Hlive'.
      { rewrite live_step. symmetry. by apply filter_unique_hit. }
      assert (is_first_hit ms before r = true) as Hfirst.
      { apply existsb_exists. exists m.
        assert (m ∈ live) as Hin by (by eapply list_elem_of_lookup_2).
        apply list_elem_of_filter in Hin as [Hun Hin].
        split; [by apply list_elem_of_In|].
        apply andb_true_iff. split; [done|]. by apply Is_true_eq_true. }
      unfold MultipleLabelSearch.mark.
      cbn [MultipleLabelSearch.matches MultipleLabelSearch.flags].
      rewrite delete_replicate by eauto. rewrite Hlive'.
      cbn [first_hits_after]. rewrite Hfirst.
      destruct (length _ =? 0)%nat eqn:Hlen.
      * apply Nat.eqb_eq, nil_length_inv in Hlen.
        exists [r]. cbn [fst snd MultipleLabelSearch.matches
                         MultipleLabelSearch.flags].
        rewrite first_hits_after_done by done.
        do 5 (split; [done|]). intros Hlive c x Hc.
        destruct c as [|c0 [|c1 c]]; [|done..].
        by rewrite app_nil_r.
      * destruct IH as (consumed & Hrd & Hws & Hms & Hfl & Hrest & Hmin).
        destruct (MultipleLabelSearch.loop false _ rd) as [[ws st] rest].
        cbn [fst snd] in *. exists (r :: consumed).
        split; [simpl; by f_equal|]. split; [simpl; by f_equal|].
        rewrite (cons_middle r before consumed), app_assoc.
        do 3 (split; [done|]). intros Hlive c x Hc.
        destruct c as [|c0 c].
        -- by rewrite app_nil_r.
        -- simpl in Hc. injection Hc as <- Hc.
           rewrite (cons_middle r before c), app_assoc.
           apply (λ H, Hmin H c x Hc). intros Hnil. by rewrite Hnil in Hlen.
    + assert (live = filter (λ m : matcher, unmatched (before ++ [r]) m) ms)
        as Hlive'.
      { rewrite live_step. symmetry. apply filter_all.
        eapply Forall_impl; [exact Hspec|]. intros m Hm. hit_with Hm. }
      assert (is_first_hit ms before r = false) as Hfirst.
      { apply not_true_is_false.
        intros (m & Hin & [Hhit Hun]%andb_true_iff)%existsb_exists.
        apply list_elem_of_In in Hin.
        assert (m ∈ live) as Hl.
        { apply list_elem_of_filter. split; [by apply Is_true_eq_left|done]. }
        rewrite Forall_forall in Hspec. specialize (Hspec m Hl).
        unfold hits in Hhit. congruence. }
      cbn [first_hits_after]. rewrite Hfirst.
      cbn [MultipleLabelSearch.matches].
      destruct (length live =? 0)%nat eqn:Hlen.
      * apply Nat.eqb_eq, nil_length_inv in Hlen.
        exists [r]. cbn [fst snd MultipleLabelSearch.matches
                         MultipleLabelSearch.flags].
        rewrite first_hits_after_done by (by rewrite <-Hlive').
        rewrite <-Hlive'. by do 5 (split; [done|]).
      * rewrite <-Hlive' in IH.
        destruct IH as (consumed & Hrd & Hws & Hms & Hfl & Hrest & Hmin).
        destruct (MultipleLabelSearch.loop false _ rd) as [[ws st] rest].
        cbn [fst snd] in *. exists (r :: consumed).
        split; [simpl; by f_equal|]. split; [done|].
        rewrite (cons_middle r before consumed), app_assoc.
        do 3 (split; [done|]). intros Hlive c x Hc.
        destruct c as [|c0 c].
        -- by rewrite app_nil_r.
        -- simpl in Hc. injection Hc as <- Hc.
           rewrite (cons_middle r before c), app_assoc.
           apply (Hmin Hlive c x Hc).
Qed.

Lemma same_target {A} (P : A → Prop) `{!∀ x, Decision (P x)} (l : list A) a b :
  (length (filter P l) ≤ 1)%nat → a ∈ l → b ∈ l → P a → P b → a = b.
Proof.
  intros Hone Ha Hb HPa HPb.
  assert (a ∈ filter P l) as Ha' by (by apply list_elem_of_filter).
  assert (b ∈ filter P l) as Hb' by (by apply list_elem_of_filter).
  destruct (filter P l) as [|x [|y l']]; [by inversion Ha'| |simpl in Hone; lia].
  apply list_elem_of_singleton in Ha', Hb'. congruence.
Qed.

Lemma first_hits_once (ms : list matcher) (before rd : reader) (m : matcher) :
  at_most_one_target ms rd → m ∈ ms →
  (length (filter (λ r, hits m r) (first_hits_after ms before rd))
   ≤ if unmatched before m then 1 else 0)%nat.
Proof.
  intros Hone Hm. revert before; induction Hone as [|r rd Hr _ IH];
    intros before; simpl; [destruct (unmatched before m); simpl; lia|].
  rewrite filter_app, length_app. specialize (IH (before ++ [r])).
  rewrite unmatched_snoc in IH.
  destruct (is_first_hit ms before r) eqn:Hfirst.
  - destruct (hits m r) eqn:Hhit.
    + rewrite filter_cons_True by (by rewrite Hhit).
      rewrite andb_false_r in IH.
      apply existsb_exists in Hfirst
        as (m' & Hin%list_elem_of_In & [Hhit' Hun]%andb_true_iff).
      assert (m = m') as <-.
      { eapply (same_target (λ m : matcher, hits m r)); [done..| |].
        - by rewrite Hhit.
        - by rewrite Hhit'. }
      rewrite Hun. simpl. lia.
    + rewrite filter_cons_False by (rewrite Hhit; exact id).
      rewrite andb_true_r in IH. simpl. done.
  - simpl. destruct (unmatched before m), (hits m r); simpl in IH; lia.
Qed.

Lemma targets_matched_app (ms : list matcher) (a b : reader) :
  targets_matched ms a → targets_matched ms (a ++ b).
Proof.
  unfold targets_matched. intros H. eapply Forall_impl; [exact H|].
  intros m (r & Hr & Hhit).
  exists r. split; [|done]. apply elem_of_app. by left.
Qed.

Lemma all_replicate_false n :
  MultipleLabelSearch.all (replicate n false) = true ↔ n = 0%nat.
Proof. by destruct n. Qed.

Lemma multi_scan_reuse (ms : list matcher) (rd : reader) :
  let res := MultipleLabelSearch.scan ms true rd in
  (found res = true → targets_matched ms rd)
  ∧ (at_most_one_target ms rd → targets_matched ms rd → found res = true)
  ∧ written res = filter (λ r, any_hit ms r) rd
  ∧ (ms ≠ [] → unread res = []).
Proof.
  destruct (decide (ms = [])) as [->|Hms].
  { destruct rd as [|r rd]; simpl; (split; [by constructor|]);
      (split; [done|]); (split; [|done]); [done|].
    symmetry. apply filter_none, Forall_forall. intros x _. exact id. }
  unfold MultipleLabelSearch.scan, MultipleLabelSearch.run,
    MultipleLabelSearch.init.
  destruct (multi_loop_reuse ms (replicate (length ms) false) rd Hms)
    as (Hws & Hrest & Hlen & Hfl).
  destruct (MultipleLabelSearch.loop true _ rd) as [[ws st] rest].
  cbn [fst snd found written unread] in *.
  rewrite length_replicate in Hlen. rewrite all_lookup, Hlen.
  unfold targets_matched. rewrite Forall_lookup.
  split; [|split; [|done]].
  - intros Hall i m Hi.
    specialize (Hall i (lookup_lt_Some _ _ _ Hi)).
    apply Hfl in Hall as [[[=] _]%lookup_replicate|(_ & r & Hr & Hfm)].
    pose proof (first_match_spec r.1 ms) as Hspec. rewrite Hfm in Hspec.
    destruct Hspec as [(m' & Hi' & Hm') _].
    exists r. split; [done|]. unfold hits.
    by injection (eq_trans (eq_sym Hi) Hi') as ->.
  - intros Hone Hall i Hi. destruct (lookup_lt_is_Some_2 ms i Hi) as [m Hm].
    destruct (Hall i m Hm) as (r & Hr & Hhit). apply Hfl. right.
    split; [by rewrite length_replicate|]. exists r. split; [done|].
    eapply unique_hit_first; [|done..].
    by eapply (proj1 (Forall_forall _ _) Hone).
Qed.

Lemma Forall_delete_inv {A} (P : A → Prop) (l : list A) i x :
  l !! i = Some x → P x → Forall P (delete i l) → Forall P l.
Proof.
  revert i; induction l as [|a l IH]; intros [|i] Hi Hx Hl; try done.
  - injection Hi as ->. by constructor.
  - simpl in Hl. apply Forall_cons in Hl as [Ha Hl].
    constructor; [done|]. by eapply IH.
Qed.

Lemma targets_matched_cons (ms : list matcher) (r : record) (rd : reader) :
  targets_matched ms rd → targets_matched ms (r :: rd).
Proof.
  unfold targets_matched. intros H. eapply Forall_impl; [exact H|].
  intros m (x & Hx & Hhit). exists x. split; [by right|done].
Qed.

(** With matchers used once, whatever the targets: every removed matcher
    accepted a record, one record is written for each removal, and the
    loop leaves records unread only when no matcher is left. *)
Lemma multi_loop_once (live : list matcher) (rd : reader) :
  let res :=
    MultipleLabelSearch.loop false
      (MultipleLabelSearch.State live (replicate (length live) false)) rd in
  MultipleLabelSearch.flags res.1.2
  = replicate (length (MultipleLabelSearch.matches res.1.2)) false
  ∧ (MultipleLabelSearch.matches res.1.2 = [] → targets_matched live rd)
  ∧ (length res.1.1 + length (MultipleLabelSearch.matches res.1.2)
     = length live)%nat
  ∧ (res.2 ≠ [] → MultipleLabelSearch.matches res.1.2 = []).
Proof.
  revert live; induction rd as [|r rd IH]; intros live res.
  - subst res. simpl. split; [done|]. split; [by intros ->; constructor|done].
  - subst res. cbn [MultipleLabelSearch.loop].
    unfold MultipleLabelSearch.step. cbn [MultipleLabelSearch.matches].
    pose proof (first_match_spec r.1 live) as Hspec.
    destruct (MultipleLabelSearch.first_match r.1 live) as [idx|].
    + destruct Hspec as [(m & Hidx & Hm) _].
      assert (∃ x, x ∈ r :: rd ∧ hits m x = true) as Hhit
        by (exists r; split; [left|done]).
      pose proof (length_delete live idx ltac:(eauto)) as Hlen.
      pose proof (lookup_lt_Some _ _ _ Hidx) as Hlt.
      unfold MultipleLabelSearch.mark.
      cbn [MultipleLabelSearch.matches MultipleLabelSearch.flags].
      rewrite delete_replicate by eauto.
      specialize (IH (delete idx live)). cbv zeta in IH.
      destruct (length (delete idx live) =? 0)%nat eqn:Hnil.
      * apply Nat.eqb_eq in Hnil.
        cbn [fst snd MultipleLabelSearch.matches MultipleLabelSearch.flags].
        split; [done|]. split; [|split].
        2:{ cbn [length]. lia. }
        -- intros Hd. eapply Forall_delete_inv; [done..|]. rewrite Hd.
           constructor.
        -- intros _. by apply nil_length_inv.
      * destruct (MultipleLabelSearch.loop false _ rd) as [[ws st] rest].
        cbn [fst snd] in *. destruct IH as (Hfl & Hall & Hcount & Hrest).
        split; [done|]. split; [|split; [cbn [app length]; lia|done]].
        intros Hd. eapply Forall_delete_inv; [done..|].
        by apply targets_matched_cons, Hall.
    + specialize (IH live). cbv zeta in IH.
      cbn [MultipleLabelSearch.matches].
      destruct (length live =? 0)%nat eqn:Hnil.
      * apply Nat.eqb_eq, nil_length_inv in Hnil as ->.
        cbn [fst snd MultipleLabelSearch.matches MultipleLabelSearch.flags].
        split; [done|]. split; [by constructor|done].
      * destruct (MultipleLabelSearch.loop false _ rd) as [[ws st] rest].
        cbn [fst snd] in *. destruct IH as (Hfl & Hall & Hcount & Hrest).
        split; [done|]. split; [|by split].
        intros Hd. by apply targets_matched_cons, Hall.
Qed.

Lemma multi_scan_once (ms : list matcher) (rd : reader) :
  let res := MultipleLabelSearch.scan ms false rd in
  (found res = true → targets_matched ms rd)
  ∧ (length (written res) ≤ length ms)%nat
  ∧ (unread res ≠ [] → found res = true).
Proof.
  destruct (multi_loop_once ms rd) as (Hfl & Hall & Hcount & Hrest).
  unfold MultipleLabelSearch.scan, MultipleLabelSearch.run,
    MultipleLabelSearch.init.
  destruct (MultipleLabelSearch.loop false _ rd) as [[ws st] rest].
  cbn [fst snd found written unread] in *.
  rewrite Hfl, all_replicate_false. split; [|split; [lia|]].
  - intros Hnil%nil_length_inv. by apply Hall.
  - intros Hne. by rewrite (Hrest Hne).
Qed.

Lemma multi_scan_exact (ms : list matcher) (rd : reader) :
  at_most_one_target ms rd →
  let res := MultipleLabelSearch.scan ms false rd in
  (found res = true ↔ targets_matched ms rd)
  ∧ written res = first_hits ms rd
  ∧ ∃ consumed,
      rd = consumed ++ unread res
      ∧ (unread res ≠ [] → targets_matched ms consumed)
      ∧ (ms ≠ [] → ∀ c r, consumed = c ++ [r] → ¬ targets_matched ms c).
Proof.
  intros Hone.
  assert (filter (λ m : matcher, unmatched [] m) ms = ms) as Hlive.
  { apply filter_all, Forall_forall. by intros m _. }
  destruct (multi_loop_exact ms rd [] Hone)
    as (consumed & Hrd & Hws & Hms & Hfl & Hrest & Hmin).
  rewrite Hlive in *. cbn [app] in *.
  unfold MultipleLabelSearch.scan, MultipleLabelSearch.run,
    MultipleLabelSearch.init, first_hits.
  destruct (MultipleLabelSearch.loop false _ rd) as [[ws st] rest].
  cbn [fst snd found written unread] in *.
  assert (rest ≠ [] → targets_matched ms consumed) as Hearly.
  { intros Hne. apply live_nil_targets_matched. rewrite <-Hms. by apply Hrest. }
  split; [|split; [done|]].
  - rewrite Hfl, all_replicate_false, Hms. split.
    + intros Hnil%nil_length_inv%live_nil_targets_matched.
      rewrite Hrd. by apply targets_matched_app.
    + intros Hall. destruct rest as [|x rest].
      * rewrite app_nil_r in Hrd. subst consumed.
        by apply live_nil_targets_matched in Hall as ->.
      * by rewrite <-Hms, Hrest.
  - exists consumed. do 2 (split; [done|]). intros Hne c r Hc Hall.
    by apply (Hmin Hne c r Hc), live_nil_targets_matched.
Qed.

(** ** Matchers used once, whatever the targets *)

Lemma first_hits_after_stop (ms : list matcher) (before rd : reader) :
  (∀ m, m ∈ ms → unmatched before m = true → False) →
  first_hits_after ms before rd = [].
Proof.
  intros Hnone. apply first_hits_after_done, filter_none, Forall_forall.
  intros m Hm Hun. by apply (Hnone m Hm), Is_true_eq_true.
Qed.

(** A target that has accepted no record yet is still live after the
    removal of the matcher that takes [r], unless it accepts [r] itself. *)
Lemma live_delete (ms live : list matcher) (before : reader) (r : record) idx :
  (∀ m, m ∈ ms → unmatched before m = true → m ∈ live) →
  MultipleLabelSearch.first_match r.1 live = Some idx →
  ∀ m, m ∈ ms → unmatched (before ++ [r]) m = true → m ∈ delete idx live.
Proof.
  intros Hinv Hfm m Hm Hun.
  rewrite unmatched_snoc in Hun.
  apply andb_true_iff in Hun as [Hun Hr%negb_true_iff].
  pose proof (first_match_spec r.1 live) as Hspec. rewrite Hfm in Hspec.
  destruct Hspec as [(m0 & Hidx & Hm0) _].
  pose proof (Hinv m Hm Hun) as Hin.
  rewrite (delete_Permutation live idx m0 Hidx) in Hin.
  apply elem_of_cons in Hin as [->|Hin]; [|done].
  unfold hits in Hr. congruence.
Qed.

Lemma live_keep (ms live : list matcher) (before : reader) (r : record) :
  (∀ m, m ∈ ms → unmatched before m = true → m ∈ live) →
  ∀ m, m ∈ ms → unmatched (before ++ [r]) m = true → m ∈ live.
Proof.
  intros Hinv m Hm Hun. rewrite unmatched_snoc in Hun.
  apply andb_true_iff in Hun as [Hun _]. by apply Hinv.
Qed.

(** The first record that each target accepts is written, and every written
    record is accepted by a target. *)
Lemma multi_loop_first_hits (ms : list matcher) (rd before : reader)
    (st : MultipleLabelSearch.state) :
  (∀ m, m ∈ ms → unmatched before m = true →
        m ∈ MultipleLabelSearch.matches st) →
  (∀ m, m ∈ MultipleLabelSearch.matches st → m ∈ ms) →
  let res := MultipleLabelSearch.loop false st rd in
  first_hits_after ms before rd `sublist_of` res.1.1
  ∧ res.1.1 `sublist_of` filter (λ r, any_hit ms r) rd.
Proof.
  revert before st; induction rd as [|r rd IH]; intros before [live fl];
    cbn [MultipleLabelSearch.matches]; intros Hinv Hsub; [done|].
  cbn [MultipleLabelSearch.loop first_hits_after].
  unfold MultipleLabelSearch.step. cbn [MultipleLabelSearch.matches].
  pose proof (first_match_spec r.1 live) as Hspec.
  destruct (MultipleLabelSearch.first_match r.1 live) as [idx|] eqn:Hfm.
  - destruct Hspec as [(m0 & Hidx & Hm0) _].
    assert (any_hit ms r = true) as Hany.
    { apply existsb_exists. exists m0. split; [|done].
      apply list_elem_of_In, Hsub. by eapply list_elem_of_lookup_2. }
    rewrite filter_cons_True by (by rewrite Hany).
    pose proof (live_delete ms live before r idx Hinv Hfm) as Hinv'.
    assert (∀ m, m ∈ delete idx live → m ∈ ms) as Hsub'.
    { intros m Hm. by eapply Hsub, list_elem_of_delete_inv. }
    unfold MultipleLabelSearch.mark.
    cbn [MultipleLabelSearch.matches MultipleLabelSearch.flags].
    destruct (length (delete idx live) =? 0)%nat eqn:Hlen.
    + apply Nat.eqb_eq, nil_length_inv in Hlen. cbn [fst snd].
      rewrite first_hits_after_stop.
      2:{ intros m Hm Hun. specialize (Hinv' m Hm Hun).
          rewrite Hlen in Hinv'. by apply elem_of_nil in Hinv'. }
      rewrite app_nil_r. split.
      * destruct (is_first_hit ms before r);
          [done|apply sublist_nil_l].
      * apply sublist_skip, sublist_nil_l.
    + specialize (IH (before ++ [r])
                     (MultipleLabelSearch.State (delete idx live)
                        (delete idx fl)) Hinv' Hsub').
      cbv zeta in IH.
      destruct (MultipleLabelSearch.loop false _ rd) as [[ws st] rest].
      cbn [fst snd] in *. destruct IH as [IH1 IH2]. split.
      * destruct (is_first_hit ms before r); simpl;
          [by apply sublist_skip|by apply sublist_cons].
      * simpl. by apply sublist_skip.
  - assert (is_first_hit ms before r = false) as ->.
    { apply not_true_is_false.
      intros (m & Hin%list_elem_of_In & [Hhit Hun]%andb_true_iff)%existsb_exists.
      rewrite Forall_forall in Hspec.
      specialize (Hspec m (Hinv m Hin Hun)). unfold hits in Hhit. congruence. }
    pose proof (live_keep ms live before r Hinv) as Hinv'.
    cbn [MultipleLabelSearch.matches app].
    destruct (length live =? 0)%nat eqn:Hlen.
    + apply Nat.eqb_eq, nil_length_inv in Hlen. cbn [fst snd].
      rewrite first_hits_after_stop.
      2:{ intros m Hm Hun. specialize (Hinv' m Hm Hun).
          rewrite Hlen in Hinv'. by apply elem_of_nil in Hinv'. }
      split; [done|apply sublist_nil_l].
    + specialize (IH (before ++ [r]) (MultipleLabelSearch.State live fl)
                     Hinv' Hsub).
      cbv zeta in IH.
      destruct (MultipleLabelSearch.loop false _ rd) as [[ws st] rest].
      cbn [fst snd app] in *. destruct IH as [IH1 IH2]. split; [done|].
      destruct (any_hit ms r) eqn:Hany.
      * rewrite filter_cons_True by (by rewrite Hany). by apply sublist_cons.
      * rewrite filter_cons_False by (rewrite Hany; exact id). done.
Qed.

(** The written records are taken by distinct matchers, each accepting the
    record it takes. *)
Lemma multi_loop_chosen (st : MultipleLabelSearch.state) (rd : reader) :
  ∃ chosen : list matcher,
    chosen ⊆+ MultipleLabelSearch.matches st
    ∧ Forall2 (λ m r, hits m r = true) chosen
        (MultipleLabelSearch.loop false st rd).1.1.
Proof.
  revert st; induction rd as [|r rd IH]; intros [live fl];
    cbn [MultipleLabelSearch.matches].
  { exists []. split; [apply submseteq_nil_l|constructor]. }
  cbn [MultipleLabelSearch.loop].
  unfold MultipleLabelSearch.step. cbn [MultipleLabelSearch.matches].
  pose proof (first_match_spec r.1 live) as Hspec.
  destruct (MultipleLabelSearch.first_match r.1 live) as [idx|].
  - destruct Hspec as [(m0 & Hidx & Hm0) _].
    pose proof (delete_Permutation live idx m0 Hidx) as Hperm.
    unfold MultipleLabelSearch.mark.
    cbn [MultipleLabelSearch.matches MultipleLabelSearch.flags].
    destruct (length (delete idx live) =? 0)%nat.
    + exists [m0]. cbn [fst snd]. split; [|by repeat constructor].
      rewrite Hperm. apply submseteq_skip, submseteq_nil_l.
    + destruct (IH (MultipleLabelSearch.State (delete idx live)
                      (delete idx fl))) as (chosen & Hch & Hall).
      cbn [MultipleLabelSearch.matches] in Hch.
      destruct (MultipleLabelSearch.loop false _ rd) as [[ws st] rest].
      cbn [fst snd] in *. exists (m0 :: chosen). split.
      * rewrite Hperm. by apply submseteq_skip.
      * by constructor.
  - cbn [MultipleLabelSearch.matches].
    destruct (length live =? 0)%nat.
    + exists []. split; [apply submseteq_nil_l|constructor].
    + destruct (IH (MultipleLabelSearch.State live fl))
        as (chosen & Hch & Hall).
      destruct (MultipleLabelSearch.loop false _ rd) as [[ws st] rest].
      by exists chosen.
Qed.

(** The loop reads no further than the record that leaves no matcher: on
    every shorter prefix of what it reads, a matcher is left. *)
Lemma multi_loop_stop reuse (st : MultipleLabelSearch.state) (rd : reader) :
  ∃ consumed,
    rd = consumed ++ (MultipleLabelSearch.loop reuse st rd).2
    ∧ (MultipleLabelSearch.matches st ≠ [] →
       ∀ c r, consumed = c ++ [r] →
              MultipleLabelSearch.matches
                (MultipleLabelSearch.loop reuse st c).1.2 ≠ []).
Proof.
  revert st; induction rd as [|r rd IH]; intros st.
  { exists []. split; [done|]. intros _ c r Hc. by destruct c. }
  cbn [MultipleLabelSearch.loop].
  destruct (MultipleLabelSearch.step reuse st r) as [w st'] eqn:Hstep.
  destruct (length (MultipleLabelSearch.matches st') =? 0)%nat eqn:Hlen.
  - exists [r]. split; [done|]. intros Hne c x Hc.
    destruct c as [|c0 [|c1 c]]; [|done..]. done.
  - destruct (IH st') as (consumed & Hrd & Hmin).
    destruct (MultipleLabelSearch.loop reuse st' rd) as [[ws st''] rest] eqn:Hl.
    cbn [fst snd] in *. exists (r :: consumed).
    split; [simpl; by f_equal|]. intros Hne c x Hc.
    destruct c as [|c0 c]; [done|].
    simpl in Hc. injection Hc as <- Hc.
    cbn [MultipleLabelSearch.loop]. rewrite Hstep, Hlen.
    assert (MultipleLabelSearch.matches st' ≠ []) as Hne'.
    { intros Hnil. by rewrite Hnil in Hlen. }
    specialize (Hmin Hne' c x Hc).
    by destruct (MultipleLabelSearch.loop reuse st' c) as [[ws' st3] rest'].
Qed.

Lemma multi_scan_general (ms : list matcher) (rd : reader) :
  let res := MultipleLabelSearch.scan ms false rd in
  first_hits ms rd `sublist_of` written res
  ∧ written res `sublist_of` filter (λ r, any_hit ms r) rd
  ∧ (∃ chosen : list matcher,
       chosen ⊆+ ms ∧ Forall2 (λ m r, hits m r = true) chosen (written res))
  ∧ ∃ consumed,
      rd = consumed ++ unread res
      ∧ (ms ≠ [] →
         ∀ c r, consumed = c ++ [r] →
                found (MultipleLabelSearch.scan ms false c) = false).
Proof.
  assert (∀ c, found (MultipleLabelSearch.scan ms false c) = false ↔
               MultipleLabelSearch.matches
                 (MultipleLabelSearch.loop false
                    (MultipleLabelSearch.init ms) c).1.2 ≠ []) as Hfound.
  { intros c. destruct (multi_loop_once ms c) as (Hfl & _).
    unfold MultipleLabelSearch.scan, MultipleLabelSearch.run,
      MultipleLabelSearch.init.
    destruct (MultipleLabelSearch.loop false _ c) as [[ws st] rest].
    cbn [fst snd found] in *. rewrite Hfl.
    destruct (MultipleLabelSearch.matches st); simpl; split; done. }
  pose proof (multi_loop_first_hits ms rd [] (MultipleLabelSearch.init ms)
                (λ m Hm _, Hm) (λ m Hm, Hm)) as Hfirst.
  destruct (multi_loop_chosen (MultipleLabelSearch.init ms) rd)
    as (chosen & Hch & Hall).
  destruct (multi_loop_stop false (MultipleLabelSearch.init ms) rd)
    as (consumed & Hrd & Hmin).
  cbv zeta in Hfirst.
  unfold MultipleLabelSearch.scan, MultipleLabelSearch.run, first_hits in *.
  destruct (MultipleLabelSearch.loop false _ rd) as [[ws st] rest].
  cbn [fst snd found written unread] in *.
  destruct Hfirst as [Hf1 Hf2]. do 2 (split; [done|]).
  split; [by exists chosen|]. exists consumed. split; [done|].
  intros Hne c r Hc. apply Hfound. by apply (Hmin Hne c r Hc).
Qed.

(** C2 (as the code has it). Multi-label search reports [true] only if every
    target accepts some record; when a target accepts none it reports
    [false] and reads the stream to its end.  When no label of the stream
    is accepted by two of the targets, as with distinct exact labels, it
    reports [true] as soon as every target accepts some record.  With
    reusable matchers it writes every record accepted by a target.  With
    matchers used once, whatever the targets: it writes at most one record
    for each target, the written records being taken by distinct targets
    that accept them; the first record that each target accepts is among
    them; it leaves records unread only when every target is found, and it
    reads no further than the first record at which the scan is complete.
    When moreover no label is accepted by two targets, the written records
    are exactly, for each target, the first record that target accepts, and
    the scan stops at the record that completes the targets. *)
Theorem multi_scan_correct (ms : list matcher) (reuse_matches : bool)
    (rd : reader) :
  let res := MultipleLabelSearch.scan ms reuse_matches rd in
  (found res = true → targets_matched ms rd)
  ∧ (¬ targets_matched ms rd → found res = false ∧ unread res = [])
  ∧ (at_most_one_target ms rd → targets_matched ms rd → found res = true)
  ∧ if reuse_matches
    then written res = filter (λ r, any_hit ms r) rd
    else
      (length (written res) ≤ length ms)%nat
      ∧ (unread res ≠ [] → found res = true)
      ∧ first_hits ms rd `sublist_of` written res
      ∧ written res `sublist_of` filter (λ r, any_hit ms r) rd
      ∧ (∃ chosen : list matcher,
           chosen ⊆+ ms
           ∧ Forall2 (λ m r, hits m r = true) chosen (written res))
      ∧ (∃ consumed,
           rd = consumed ++ unread res
           ∧ (ms ≠ [] →
              ∀ c r, consumed = c ++ [r] →
                     found (MultipleLabelSearch.scan ms false c) = false))
      ∧ (at_most_one_target ms rd →
         written res = first_hits ms rd
         ∧ Forall
             (λ m, (length (filter (λ r, hits m r) (written res)) ≤ 1)%nat) ms
         ∧ ∃ consumed,
             rd = consumed ++ unread res
             ∧ (ms ≠ [] →
                ∀ c r, consumed = c ++ [r] → ¬ targets_matched ms c)).
Proof.
  destruct reuse_matches; cbv zeta.
  - destruct (multi_scan_reuse ms rd) as (Hfound & Hback & Hw & Hu).
    split; [done|]. split; [|by split]. intros Hnot. split.
    + apply not_true_is_false. intros H. by apply Hnot, Hfound.
    + apply Hu. intros ->. apply Hnot. constructor.
  - destruct (multi_scan_once ms rd) as (Hfound & Hcount & Hearly).
    destruct (multi_scan_general ms rd) as (Hfirst & Hany & Hchosen & Hstop).
    split; [done|]. split; [|split].
    + intros Hnot. split.
      * apply not_true_is_false. intros H. by apply Hnot, Hfound.
      * destruct (unread (MultipleLabelSearch.scan ms false rd)) as [|x rest];
          [done|]. destruct Hnot. by apply Hfound, Hearly.
    + intros Hone. by apply (multi_scan_exact ms rd Hone).
    + do 6 (split; [done|]). intros Hone.
      destruct (multi_scan_exact ms rd Hone)
        as (_ & Hw & consumed & Hrd & _ & Hmin).
      split; [done|]. split; [|by exists consumed].
      rewrite Hw. apply Forall_forall. intros m Hm.
      etrans; [by apply first_hits_once|]. done.
Qed.

Lemma multi_scan_correct_witness :
  let ms := [ExactMatch "b"; ExactMatch "a"; ExactMatch "z"] in
  let rd := [("a", ["AC"]); ("c", []); ("b", ["GT"]); ("a", ["TT"])] in
  let res := MultipleLabelSearch.scan ms false rd in
  written res = first_hits ms rd
  ∧ Forall (λ m, (length (filter (λ r, hits m r) (written res)) ≤ 1)%nat) ms
  ∧ ∃ consumed,
      rd = consumed ++ unread res
      ∧ (ms ≠ [] → ∀ c r, consumed = c ++ [r] → ¬ targets_matched ms c).
Proof.
  apply (multi_scan_correct
           [ExactMatch "b"; ExactMatch "a"; ExactMatch "z"] false).
  repeat constructor.
Defined.

(** The example of the specification: distinct labels that occur once each
    are all written and found; with one label absent the others are still
    written and the result is [false]. *)
Example multi_examples :
  let rd := [("a", ["AC"]); ("c", []); ("b", ["GT"]); ("d", ["TT"])] in
  MultipleLabelSearch.scan [ExactMatch "b"; ExactMatch "a"] false rd
  = ScanResult true [("a", ["AC"]); ("b", ["GT"])] [("d", ["TT"])]
  ∧ MultipleLabelSearch.scan
      [ExactMatch "b"; ExactMatch "z"; ExactMatch "a"] false rd
    = ScanResult false [("a", ["AC"]); ("b", ["GT"])] [].
Proof. split; reflexivity. Qed.

(** Matchers used once that accept the same label: the record is taken by
    the first of them, and the other stays live for a later record. *)
Example multi_overlap_once :
  (λ ms, MultipleLabelSearch.scan ms false [("ab", ["AC"]); ("b", ["GT"])])
    <$> mapM RegularExpressionMatch ["a"; "b"; "z"]
  = Some (ScanResult false [("ab", ["AC"]); ("b", ["GT"])] []).
Proof. vm_compute. reflexivity. Qed.

(** C2 (as stated). Two patterns that accept the same label: the record is
    taken by the first, the second is never marked, and the scan reports
    [false] although each target accepts a record of the stream. *)
Lemma multi_scan_overlap_counterexample :
  ∃ ms,
    mapM RegularExpressionMatch ["a"; "b"] = Some ms
    ∧ ¬ (found (MultipleLabelSearch.scan ms true [("ab", ["ACGT"])]) = true
         ↔ targets_matched ms [("ab", ["ACGT"])]).
Proof.
  eexists. split; [reflexivity|]. intros [_ H].
  assert (false = true) as Hff; [|done].
  apply H. repeat constructor; exists ("ab", ["ACGT"]); (split; [left|done]).
Qed.

(** * Further properties *)

(** ** Index and range specifications *)

Lemma parse_range_checked (value : string) :
  match parse_range value with
  | inr spec => valid_spec spec
  | inl e => is_exit e
  end.
Proof.
  unfold parse_range.
  destruct (str_find ":" (str_drop 1 value)) as [idx|].
  - set (start := str_take idx (str_drop 1 value)).
    set (stop := str_drop (idx + 1) (str_drop 1 value)).
    destruct (String.length start =? 0)%nat.
    + cbn [mbind result_bind mret result_ret].
      destruct (String.length stop =? 0)%nat; [done|].
      destruct (py_int stop) as [e|]; simpl; [done|by eexists].
    + destruct (py_int start) as [s|]; [|by eexists].
      destruct (s <? 0) eqn:Hs; [by eexists|]. apply Z.ltb_ge in Hs.
      cbn [mbind result_bind mret result_ret].
      destruct (String.length stop =? 0)%nat; [done|].
      destruct (py_int stop) as [e|]; [|by eexists].
      cbn [le_start]. destruct (e <=? s) eqn:He; [by eexists|].
      apply Z.leb_gt in He. simpl. lia.
  - destruct (py_int (str_drop 1 value)) as [idx|]; [|by eexists].
    destruct (idx <? 0) eqn:Hidx; [by eexists|].
    apply Z.ltb_ge in Hidx. done.
Qed.

(** X1. Whatever the argument, [parse_range] either ends the process through
    [exit] or returns a specification whose index is not negative, whose
    given start is not negative and whose given stop lies after a given
    start.  So the index or range strategy that is built for an argument
    starting with [@] never holds a negative index or start, nor a stop at
    or before its start. *)
Theorem parse_range_valid (value : string) :
  match parse_range value with
  | inr spec => valid_spec spec
  | inl e => is_exit e
  end
  ∧ ∀ o fs,
      if is_range value then
        match select o fs value with
        | inr (Index idx) => 0 ≤ idx
        | inr (Range (Some s) (Some e)) => 0 ≤ s < e
        | inr (Range (Some s) None) => 0 ≤ s
        | inr (Range None _) => True
        | inr (SingleLabel _ _) | inr (MultipleLabel _ _) => False
        | inl e => is_exit e
        end
      else True.
Proof.
  pose proof (parse_range_checked value) as Hspec. split; [done|].
  intros o fs. unfold select. destruct (is_range value); [|done].
  destruct (parse_range value) as [e|[idx|start stop]]; [done..|].
  by destruct start, stop.
Qed.

(** ** Range search without a start, and what a range search reads *)

Lemma range_nostart_written stop pos (rd : reader) :
  written (RangeSearch.loop None stop pos rd)
  = match stop with
    | Some e => take (Z.to_nat (e - (pos + 1))) rd
    | None => rd
    end.
Proof.
  revert pos; induction rd as [|[h ls] rd IH]; intros pos.
  - by destruct stop; rewrite ?take_nil.
  - cbn [RangeSearch.loop RangeSearch.from_start].
    destruct stop as [e|]; cbn [RangeSearch.at_stop].
    + destruct (e <=? pos + 1) eqn:He.
      * apply Z.leb_le in He.
        by replace (Z.to_nat (e - (pos + 1))) with 0%nat by lia.
      * apply Z.leb_gt in He. cbn [wrote written]. rewrite IH.
        by replace (Z.to_nat (e - (pos + 1)))
          with (S (Z.to_nat (e - (pos + 1 + 1)))) by lia.
    + cbn [wrote written]. by rewrite IH.
Qed.

Lemma range_nostart_found stop pos (rd : reader) :
  found (RangeSearch.loop None stop pos rd) = false ↔
  ∃ e, stop = Some e ∧ pos + Z.of_nat (length rd) < e - 1.
Proof.
  revert pos; induction rd as [|[h ls] rd IH]; intros pos.
  - simpl. unfold RangeSearch.exhausted. destruct stop as [e|].
    + destruct (pos <? e - 1) eqn:He.
      * apply Z.ltb_lt in He. split; [|done]. intros _. exists e.
        split; [done|lia].
      * apply Z.ltb_ge in He. split; [done|]. intros (e' & [= <-] & ?). lia.
    + split; [done|]. by intros (e & [=] & _).
  - cbn [RangeSearch.loop RangeSearch.from_start length].
    destruct stop as [e|]; cbn [RangeSearch.at_stop].
    + destruct (e <=? pos + 1) eqn:He.
      * apply Z.leb_le in He. simpl. split; [done|].
        intros (e' & [= <-] & ?). lia.
      * cbn [wrote found]. rewrite IH. split.
        -- intros (e' & [= <-] & ?). exists e. split; [done|lia].
        -- intros (e' & [= <-] & ?). exists e. split; [done|lia].
    + cbn [wrote found]. rewrite IH. split; by intros (e & [=] & _).
Qed.

(** X2. With the start omitted, range search writes the first [stop] records
    of the stream (all of them when the stop is omitted too, none when the
    stop is not positive), and it reports [false] exactly when a stop is
    given and the stream holds fewer than [stop] records. *)
Theorem range_scan_omitted_start (stop : option Z) (rd : reader) :
  let res := RangeSearch.scan None stop rd in
  written res
  = match stop with
    | Some e => take (Z.to_nat e) rd
    | None => rd
    end
  ∧ (found res = false ↔ ∃ e, stop = Some e ∧ Z.of_nat (length rd) < e).
Proof.
  unfold RangeSearch.scan. split.
  - rewrite range_nostart_written. destruct stop as [e|]; [|done].
    by replace (e - (-1 + 1)) with e by lia.
  - rewrite range_nostart_found. split.
    + intros (e & -> & ?). exists e. split; [done|lia].
    + intros (e & -> & ?). exists e. split; [done|lia].
Qed.



(** ** Index search at any index *)

Lemma index_loop_past (idx pos : Z) (rd : reader) :
  idx < pos → IndexSearch.loop idx pos rd = ScanResult false [] [].
Proof.
  revert pos; induction rd as [|[h ls] rd IH]; intros pos Hlt; [done|].
  cbn [IndexSearch.loop].
  replace (pos =? idx) with false by (symmetry; apply Z.eqb_neq; lia).
  apply IH. lia.
Qed.

(** X4. For every index, negative ones included, index search reports
    [true] exactly when the index is a position of the stream; a miss has
    read the whole stream and written nothing. *)
Theorem index_scan_found (idx : Z) (rd : reader) :
  let res := IndexSearch.scan idx rd in
  (found res = true ↔ 0 ≤ idx < Z.of_nat (length rd))
  ∧ (if found res then True else written res = [] ∧ unread res = []).
Proof.
  unfold IndexSearch.scan. destruct (decide (idx < 0)) as [Hneg|Hpos].
  - rewrite index_loop_past by done. simpl. split; [|done].
    split; [done|lia].
  - rewrite index_loop, Z.sub_0_r by lia.
    destruct (rd !! Z.to_nat idx) as [r|] eqn:Hr; simpl.
    + apply lookup_lt_Some in Hr. split; [|done]. split; [lia|done].
    + apply lookup_ge_None in Hr. split; [|done]. split; [done|lia].
Qed.

(** ** The id-only adapter, again *)

Lemma truncated_idempotent (value : string) :
  truncated (truncated value) = truncated value.
Proof.
  destruct (truncated_cut value) as (rest & _ & Hfree & _).
  by apply truncated_sep_free.
Qed.

Lemma truncated_app_sep (id rest : string) (c : ascii) :
  sep_free id = true → is_sep c = true →
  truncated (id +:+ String c rest) = id.
Proof.
  intros Hid Hc. induction id as [|a id IH].
  - change (truncated (String c rest) = EmptyString). simpl. by rewrite Hc.
  - simpl in Hid. apply andb_true_iff in Hid as [Ha%negb_true_iff Hid].
    change (truncated (String a (id +:+ String c rest)) = String a id).
    simpl. rewrite Ha. f_equal. by apply IH.
Qed.

(** X5. Through the id-only adapter a label made of an identifier without
    space or tab, then a space or a tab, then anything, is matched as the
    identifier alone; applying the adapter twice is applying it once. *)
Theorem id_filter_ignores_description (m : matcher) (id rest : string)
    (c : ascii) :
  sep_free id = true → is_sep c = true →
  id_filter m (id +:+ String c rest) = m id
  ∧ id_filter (id_filter m) (id +:+ String c rest)
    = id_filter m (id +:+ String c rest)
  ∧ ∀ value, id_filter (id_filter m) value = id_filter m value.
Proof.
  intros Hid Hc.
  assert (∀ value, id_filter (id_filter m) value = id_filter m value) as Hidem.
  { intros value. by rewrite !id_filter_truncated, truncated_idempotent. }
  split; [|by split].
  by rewrite id_filter_truncated, truncated_app_sep.
Qed.

Lemma id_filter_ignores_description_witness :
  id_filter (ExactMatch "seq1") "seq1	extra info" = ExactMatch "seq1" "seq1"
  ∧ id_filter (id_filter (ExactMatch "seq1")) "seq1	extra info"
    = id_filter (ExactMatch "seq1") "seq1	extra info"
  ∧ ∀ value, id_filter (id_filter (ExactMatch "seq1")) value
             = id_filter (ExactMatch "seq1") value.
Proof.
  apply (id_filter_ignores_description (ExactMatch "seq1") "seq1" "extra info"
           "009"%char); reflexivity.
Defined.

(** ** A label given on the command line *)

Lemma single_loop_miss (m : matcher) reuse f (rd : reader) :
  Forall (λ x, m x.1 = false) rd →
  SingleLabelSearch.loop m reuse f rd = ScanResult f [] [].
Proof.
  induction 1 as [|[h ls] rd Hm _ IH]; [done|].
  cbn [SingleLabelSearch.loop]. cbn [fst] in Hm. by rewrite Hm.
Qed.

Lemma single_loop_hit (m : matcher) f (pre post : reader) h ls :
  Forall (λ x, m x.1 = false) pre → m h = true →
  SingleLabelSearch.loop m false f (pre ++ (h, ls) :: post)
  = ScanResult true [(h, ls)] post.
Proof.
  intros Hpre Hh. induction Hpre as [|[h' ls'] pre Hm _ IH].
  - simpl. by rewrite Hh.
  - cbn [app SingleLabelSearch.loop]. cbn [fst] in Hm. by rewrite Hm.
Qed.

Lemma select_exact_single (o : options) (fs : files) (L : string) :
  regexp o = false → word_regexp o = false → from_file o = false →
  is_range L = false →
  check_args o [L] ≫= select o fs
  = inr (SingleLabel (filter_class o (ExactMatch L)) false).
Proof.
  intros Hr Hw Hf Hrange. unfold check_args, select, matcher_class.
  rewrite Hr, Hw, Hrange. simpl. by rewrite Hrange, Hf.
Qed.

Lemma exact_id_filter_rejects (text value : string) :
  sep_free text = false → id_filter (ExactMatch text) value = false.
Proof.
  intros Htext. rewrite id_filter_truncated. unfold ExactMatch.
  apply String.eqb_neq. intros ->.
  destruct (truncated_cut value) as (_ & _ & Hfree & _). congruence.
Qed.

(** X6. With [-i] and an exact label that itself holds a space or a tab,
    nothing can be selected: on every stream the scan writes nothing and
    reads everything, and the process reports missing blocks unless [-m] is
    given. *)
Theorem id_only_label_with_separator (o : options) (fs : files)
    (text : string) (stdin : reader) :
  id_only o = true → regexp o = false → word_regexp o = false →
  from_file o = false → is_range text = false →
  sep_free text = false →
  (∀ reuse, SingleLabelSearch.scan (id_filter (ExactMatch text)) reuse stdin
            = ScanResult false [] [])
  ∧ main o [text] fs stdin
    = Run (if ignore_missing o then inr ()
           else exit "Some FASTA blocks are missing.") [] [].
Proof.
  intros Hi Hr Hw Hf Hrange Htext.
  assert (∀ reuse, SingleLabelSearch.scan (id_filter (ExactMatch text)) reuse
                     stdin = ScanResult false [] []) as Hscan.
  { intros reuse. apply single_loop_miss, Forall_forall. intros x _.
    by apply exact_id_filter_rejects. }
  split; [done|]. unfold main.
  rewrite select_exact_single by done. unfold filter_class. rewrite Hi.
  cbn [scan]. rewrite Hscan. cbn [found written unread]. simpl.
  by destruct (ignore_missing o), (read_all_input_file o).
Qed.

Lemma id_only_label_with_separator_witness :
  let o := Options true false false false false false false in
  let stdin := [("seq1 extra info", ["ACGT"]); ("seq1", ["TT"])] in
  (∀ reuse,
     SingleLabelSearch.scan (id_filter (ExactMatch "seq1 extra info")) reuse
       stdin = ScanResult false [] [])
  ∧ main o ["seq1 extra info"] (λ _, None) stdin
    = Run (if ignore_missing o then inr ()
           else exit "Some FASTA blocks are missing.") [] [].
Proof.
  apply (id_only_label_with_separator
           (Options true false false false false false false));
    reflexivity.
Defined.

(** X7. With no option that changes the matching, a label that is not an
    index specification selects the first record whose header is the label:
    the process prints that record, ends normally and leaves the records
    after it unread (none with [-p]).  When no header is the label it prints
    nothing, reads the whole stream and, unless [-m] is given, ends with the
    missing-blocks message. *)
Theorem main_exact_label (o : options) (fs : files) (L : string)
    (stdin : reader) :
  id_only o = false → regexp o = false → word_regexp o = false →
  from_file o = false → is_range L = false →
  (∀ pre ls post,
     Forall (λ x, x.1 ≠ L) pre → stdin = pre ++ (L, ls) :: post →
     main o [L] fs stdin
     = Run (inr ()) (FastaWriter.write (negb (no_headers o)) (L, ls))
         (if read_all_input_file o then [] else post))
  ∧ (Forall (λ x, x.1 ≠ L) stdin →
     main o [L] fs stdin
     = Run (if ignore_missing o then inr ()
            else exit "Some FASTA blocks are missing.") [] []).
Proof.
  intros Hi Hr Hw Hf Hrange.
  assert (∀ rd : reader,
            Forall (λ x, x.1 ≠ L) rd →
            Forall (λ x, ExactMatch L x.1 = false) rd) as Hmiss.
  { intros rd Hrd. eapply Forall_impl; [exact Hrd|]. intros x Hx.
    unfold ExactMatch. apply String.eqb_neq. congruence. }
  unfold main. rewrite select_exact_single by done.
  unfold filter_class, identity_filter. rewrite Hi.
  cbn [scan]. unfold SingleLabelSearch.scan. split.
  - intros pre ls post Hpre ->.
    rewrite single_loop_hit by (auto || apply String.eqb_refl).
    cbn [found written unread]. simpl. by rewrite app_nil_r.
  - intros Hall. rewrite single_loop_miss by auto.
    cbn [found written unread]. simpl.
    by destruct (ignore_missing o), (read_all_input_file o).
Qed.

Lemma main_exact_label_witness :
  let o := Options false false false false false false false in
  let stdin := [("a", ["AC"]); ("b", ["GT"]); ("b", ["TT"])] in
  (∀ pre ls post,
     Forall (λ x, x.1 ≠ "b") pre → stdin = pre ++ ("b", ls) :: post →
     main o ["b"] (λ _, None) stdin
     = Run (inr ()) (FastaWriter.write (negb (no_headers o)) ("b", ls))
         (if read_all_input_file o then [] else post))
  ∧ (Forall (λ x, x.1 ≠ "b") stdin →
     main o ["b"] (λ _, None) stdin
     = Run (if ignore_missing o then inr ()
            else exit "Some FASTA blocks are missing.") [] []).
Proof.
  apply (main_exact_label (Options false false false false false false false));
    reflexivity.
Defined.

(** ** The writer *)

(** X8. Without headers the writer prints the content lines of the records,
    in order, each followed by a line break, and nothing else; with headers
    it prints the same strings in the same order plus one header string for
    each record. *)
Theorem writer_header_suppression (rs : list record) :
  FastaWriter.output false rs = (λ line, line +:+ "
") <$> (rs ≫= snd)
  ∧ FastaWriter.output false rs `sublist_of` FastaWriter.output true rs
  ∧ length (FastaWriter.output true rs)
    = (length rs + length (FastaWriter.output false rs))%nat.
Proof.
  unfold FastaWriter.output. induction rs as [|[h ls] rs (IH1 & IH2 & IH3)].
  - done.
  - cbn [mbind list_bind FastaWriter.write fst snd app]. split; [|split].
    + rewrite fmap_app. by f_equal.
    + apply sublist_cons, sublist_app; [done|exact IH2].
    + cbn [length]. rewrite !length_app. lia.
Qed.

(** ** Options that do not take part in the selection *)

Lemma select_same_selection (o o' : options) (args : list string) (fs : files) :
  same_selection o o' →
  check_args o args ≫= select o fs = check_args o' args ≫= select o' fs.
Proof.
  intros (Hi & Hr & Hw & Hf).
  unfold check_args, select, matcher_class, filter_class.
  by rewrite Hi, Hr, Hw, Hf.
Qed.

(** X9. Between two runs that differ only in [-n], [-m] and [-p]: the exit
    status is the same when [-m] is, whatever [-n] and [-p] are; the output is
    the same when [-n] is, whatever [-m] and [-p] are; and what is left
    unread is the same when [-m] and [-p] are. *)
Theorem main_flag_independence (o o' : options) (args : list string)
    (fs : files) (stdin : reader) :
  same_selection o o' →
  let r := main o args fs stdin in
  let r' := main o' args fs stdin in
  (ignore_missing o = ignore_missing o' → status r = status r')
  ∧ (no_headers o = no_headers o' → stdout r = stdout r')
  ∧ (ignore_missing o = ignore_missing o' →
     read_all_input_file o = read_all_input_file o' →
     stdin_left r = stdin_left r').
Proof.
  intros Hsame. cbv zeta. unfold main.
  rewrite (select_same_selection o o') by done.
  destruct (check_args o' args ≫= select o' fs) as [e|s]; [done|].
  set (miss := negb (found (scan s stdin))).
  split; [|split].
  - intros ->. by destruct (miss && negb (ignore_missing o')).
  - intros ->.
    by destruct (miss && negb (ignore_missing o)),
         (miss && negb (ignore_missing o')).
  - intros -> ->. by destruct (miss && negb (ignore_missing o')).
Qed.

Lemma main_flag_independence_witness :
  let o := Options true false false false false true false in
  let o' := Options true false false false true true true in
  let stdin := [("a x", ["AC"]); ("b", ["GT"])] in
  let r := main o ["a"] (λ _, None) stdin in
  let r' := main o' ["a"] (λ _, None) stdin in
  (ignore_missing o = ignore_missing o' → status r = status r')
  ∧ (no_headers o = no_headers o' → stdout r = stdout r')
  ∧ (ignore_missing o = ignore_missing o' →
     read_all_input_file o = read_all_input_file o' →
     stdin_left r = stdin_left r').
Proof.
  apply (main_flag_independence
           (Options true false false false false true false)
           (Options true false false false true true true)).
  repeat split.
Defined.

(** ** Counting what a multi-label search writes *)

(** X10. With matchers used once, multi-label search writes as many records
    as it has removed matchers: never more than there are targets, and as
    many as there are targets exactly when it reports [true]. *)
Theorem multi_scan_count (ms : list matcher) (rd : reader) :
  let res := MultipleLabelSearch.scan ms false rd in
  (length (written res) ≤ length ms)%nat
  ∧ (found res = true ↔ length (written res) = length ms).
Proof.
  destruct (multi_loop_once ms rd) as (Hfl & _ & Hcount & _).
  unfold MultipleLabelSearch.scan, MultipleLabelSearch.run,
    MultipleLabelSearch.init.
  destruct (MultipleLabelSearch.loop false _ rd) as [[ws st] rest].
  cbn [fst snd found written unread] in *.
  rewrite Hfl, all_replicate_false. split; lia.
Qed.

(** ** An index or a range given on the command line *)

Lemma select_range_spec (o : options) (fs : files) (arg : string) :
  is_range arg = true → regexp o = false → word_regexp o = false →
  check_args o [arg] ≫= select o fs
  = match parse_range arg with
    | inl e => inl e
    | inr (idx_spec idx) => inr (Index idx)
    | inr (range_spec_of start stop) => inr (Range start stop)
    end.
Proof.
  intros Hrange Hr Hw. unfold check_args, select. rewrite Hr, Hw, Hrange.
  simpl. rewrite Hrange. by destruct (parse_range arg) as [e|[idx|start stop]].
Qed.

(** X11. For an argument [@IDX] that [parse_range] accepts, and without
    pattern options: when the stream has a record at that position the
    process prints exactly that record, ends normally and leaves the records
    after it unread (none with [-p]); otherwise it prints nothing, reads
    everything and, unless [-m] is given, ends with the missing-blocks
    message. *)
Theorem main_index_spec (o : options) (fs : files) (arg : string) (idx : Z)
    (stdin : reader) :
  is_range arg = true → regexp o = false → word_regexp o = false →
  parse_range arg = inr (idx_spec idx) →
  main o [arg] fs stdin
  = match stdin !! Z.to_nat idx with
    | Some r =>
        Run (inr ()) (FastaWriter.write (negb (no_headers o)) r)
          (if read_all_input_file o then []
           else drop (S (Z.to_nat idx)) stdin)
    | None =>
        Run (if ignore_missing o then inr ()
             else exit "Some FASTA blocks are missing.") [] []
    end.
Proof.
  intros Hrange Hr Hw Hparse.
  pose proof (parse_range_checked arg) as Hvalid. rewrite Hparse in Hvalid.
  simpl in Hvalid. unfold main. rewrite select_range_spec, Hparse by done.
  cbn [scan]. unfold IndexSearch.scan. rewrite index_loop, Z.sub_0_r by done.
  destruct (stdin !! Z.to_nat idx) as [r|]; cbn [found written unread]; simpl.
  - by rewrite app_nil_r.
  - by destruct (ignore_missing o), (read_all_input_file o).
Qed.

Lemma main_index_spec_witness :
  let o := Options false false false false false false false in
  let stdin := [("a", ["AC"]); ("b", ["GT"]); ("c", ["TT"])] in
  main o ["@1"] (λ _, None) stdin
  = match stdin !! Z.to_nat 1 with
    | Some r =>
        Run (inr ()) (FastaWriter.write (negb (no_headers o)) r)
          (if read_all_input_file o then [] else drop (S (Z.to_nat 1)) stdin)
    | None =>
        Run (if ignore_missing o then inr ()
             else exit "Some FASTA blocks are missing.") [] []
    end.
Proof.
  apply (main_index_spec (Options false false false false false false false));
    reflexivity.
Defined.

(** X12. For an argument [@START:STOP] that [parse_range] accepts, and without
    pattern options, the process prints the records of the stream from
    position [START] (from the first when omitted) up to, not including,
    position [STOP] (up to the end when omitted), and it fails exactly when
    [-m] is not given and the stream has no record at position [START] or
    fewer than [STOP] records. *)
Theorem main_range_spec (o : options) (fs : files) (arg : string)
    (start stop : option Z) (stdin : reader) :
  is_range arg = true → regexp o = false → word_regexp o = false →
  parse_range arg = inr (range_spec_of start stop) →
  let r := main o [arg] fs stdin in
  let first := Z.to_nat (default 0 start) in
  stdout r
  = FastaWriter.output (negb (no_headers o))
      match stop with
      | Some e => take (Z.to_nat (e - default 0 start)) (drop first stdin)
      | None => drop first stdin
      end
  ∧ (failed r ↔
     ignore_missing o = false
     ∧ ((∃ s, start = Some s ∧ Z.of_nat (length stdin) ≤ s)
        ∨ ∃ e, stop = Some e ∧ Z.of_nat (length stdin) < e)).
Proof.
  intros Hrange Hr Hw Hparse.
  pose proof (parse_range_checked arg) as Hvalid. rewrite Hparse in Hvalid.
  cbv zeta. unfold main, failed.
  rewrite select_range_spec, Hparse by done. cbn [scan].
  assert (written (RangeSearch.scan start stop stdin)
          = match stop with
            | Some e => take (Z.to_nat (e - default 0 start))
                          (drop (Z.to_nat (default 0 start)) stdin)
            | None => drop (Z.to_nat (default 0 start)) stdin
            end) as Hw'.
  { unfold RangeSearch.scan. destruct start as [s|]; cbn [default].
    - rewrite range_loop_written.
      assert (0 ≤ s) by (destruct stop; simpl in Hvalid; lia).
      rewrite in_range_slice by lia. by rewrite Z.sub_0_r.
    - rewrite range_nostart_written. destruct stop as [e|]; [|done].
      by replace (e - (-1 + 1)) with (e - 0) by lia. }
  assert (found (RangeSearch.scan start stop stdin) = false
          ↔ (∃ s, start = Some s ∧ Z.of_nat (length stdin) ≤ s)
            ∨ ∃ e, stop = Some e ∧ Z.of_nat (length stdin) < e) as Hf.
  { unfold RangeSearch.scan. destruct start as [s|].
    - rewrite range_loop_found.
      2:{ intros e ->. simpl in Hvalid. lia. }
      split.
      + intros [?|(e & -> & ?)]; [left; exists s|right; exists e];
          (split; [done|lia]).
      + intros [(s' & [= <-] & ?)|(e & -> & ?)]; [left; lia|].
        right. exists e. split; [done|lia].
    - rewrite range_nostart_found. split.
      + intros (e & -> & ?). right. exists e. split; [done|lia].
      + intros [(s & [=] & _)|(e & -> & ?)]. exists e. split; [done|lia]. }
  split.
  - rewrite <-Hw'.
    by destruct (negb (found (RangeSearch.scan start stop stdin))
                 && negb (ignore_missing o)).
  - rewrite <-Hf.
    destruct (found (RangeSearch.scan start stop stdin)),
      (ignore_missing o); simpl; split.
    all: try (by intros [e [=]]).
    all: try (by intros [[=] [=]]).
    all: try (by intros [[=] _]).
    all: try (by intros [_ [=]]).
    all: try done.
    intros _. by eexists.
Qed.

Lemma main_range_spec_witness :
  let o := Options false false false false false false false in
  let stdin := [("a", ["AC"]); ("b", ["GT"]); ("c", ["TT"]); ("d", [])] in
  let r := main o ["@1:3"] (λ _, None) stdin in
  let first := Z.to_nat (default 0 (Some 1)) in
  stdout r
  = FastaWriter.output (negb (no_headers o))
      (take (Z.to_nat (3 - default 0 (Some 1))) (drop first stdin))
  ∧ (failed r ↔
     ignore_missing o = false
     ∧ ((∃ s, Some 1 = Some s ∧ Z.of_nat (length stdin) ≤ s)
        ∨ ∃ e, Some 3 = Some e ∧ Z.of_nat (length stdin) < e)).
Proof.
  apply (main_range_spec (Options false false false false false false false)
           (λ _, None) "@1:3" (Some 1) (Some 3));
    reflexivity.
Defined.

(** ** Labels from a file, matched exactly *)

Lemma exact_matcher_hits (o : options) (l : string) (r : record) :
  hits (filter_class o (ExactMatch l)) r = true ↔ l = label_key (id_only o) r.
Proof.
  unfold hits, filter_class, label_key, identity_filter.
  destruct (id_only o).
  - rewrite id_filter_truncated. apply String.eqb_eq.
  - apply String.eqb_eq.
Qed.

Lemma exact_matchers_filter (o : options) (labels : list string) (r : record) :
  filter (λ m : matcher, hits m r) (exact_matchers o labels)
  = exact_matchers o (filter (λ l, l = label_key (id_only o) r) labels).
Proof.
  unfold exact_matchers. induction labels as [|l labels IH]; [done|].
  rewrite fmap_cons, !filter_cons, IH.
  destruct (decide (l = label_key (id_only o) r)) as [Hl|Hl].
  - apply exact_matcher_hits in Hl.
    by rewrite decide_True by (by apply Is_true_eq_left).
  - rewrite decide_False; [done|].
    intros H%Is_true_eq_true. by apply Hl, exact_matcher_hits.
Qed.

Lemma NoDup_filter_eq_length (labels : list string) (k : string) :
  NoDup labels → (length (filter (λ l, l = k) labels) ≤ 1)%nat.
Proof.
  induction 1 as [|l labels Hl _ IH]; [simpl; lia|].
  rewrite filter_cons. destruct (decide (l = k)) as [->|]; [|done].
  rewrite filter_none; [simpl; lia|]. apply Forall_forall. by intros x Hx ->.
Qed.

Lemma distinct_exact_disjoint (o : options) (labels : list string)
    (rd : reader) :
  NoDup labels → at_most_one_target (exact_matchers o labels) rd.
Proof.
  intros Hnd. apply Forall_forall. intros r _.
  rewrite exact_matchers_filter. unfold exact_matchers.
  rewrite length_fmap. by apply NoDup_filter_eq_length.
Qed.

Lemma exact_targets_matched (o : options) (labels : list string)
    (rd : reader) :
  targets_matched (exact_matchers o labels) rd ↔
  ∀ l, l ∈ labels → ∃ x, x ∈ rd ∧ label_key (id_only o) x = l.
Proof.
  unfold targets_matched, exact_matchers.
  rewrite Forall_fmap, Forall_forall. split.
  - intros Hall l Hl. destruct (Hall l Hl) as (x & Hx & Hhit%exact_matcher_hits).
    by exists x.
  - intros Hall l Hl. destruct (Hall l Hl) as (x & Hx & Hkey).
    exists x. split; [done|]. by apply exact_matcher_hits.
Qed.

Lemma exact_unmatched (o : options) (l : string) (before : reader) :
  unmatched before (filter_class o (ExactMatch l)) = true ↔
  l ∉ label_key (id_only o) <$> before.
Proof.
  unfold unmatched. rewrite forallb_forall. split.
  - intros Hall (x & -> & Hx)%list_elem_of_fmap.
    apply list_elem_of_In, Hall, negb_true_iff in Hx.
    by rewrite (proj2 (exact_matcher_hits o _ x) eq_refl) in Hx.
  - intros Hnot x Hx%list_elem_of_In. apply negb_true_iff, not_true_is_false.
    intros ->%exact_matcher_hits. apply Hnot, list_elem_of_fmap. by exists x.
Qed.

Lemma exact_first_hit (o : options) (labels : list string)
    (before : reader) (r : record) :
  is_first_hit (exact_matchers o labels) before r = true ↔
  (label_key (id_only o) r ∈ labels)
  ∧ (label_key (id_only o) r ∉ label_key (id_only o) <$> before).
Proof.
  unfold is_first_hit, exact_matchers. rewrite existsb_exists. split.
  - intros (m & (l & -> & Hl)%list_elem_of_In%list_elem_of_fmap
              & [->%exact_matcher_hits Hun%exact_unmatched]%andb_true_iff).
    done.
  - intros [Hin Hnot]. exists (filter_class o (ExactMatch (label_key (id_only o) r))).
    split.
    + apply list_elem_of_In, list_elem_of_fmap. by eexists.
    + apply andb_true_iff. split; [by apply exact_matcher_hits|].
      by apply exact_unmatched.
Qed.

Lemma exact_first_hits (o : options) (labels : list string)
    (before rd : reader) :
  first_hits_after (exact_matchers o labels) before rd
  = first_by_key (label_key (id_only o)) (list_to_set labels) before rd.
Proof.
  revert before; induction rd as [|r rd IH]; intros before; [done|].
  cbn [first_hits_after first_by_key]. rewrite IH. f_equal.
  destruct (is_first_hit (exact_matchers o labels) before r) eqn:Hfirst.
  - apply exact_first_hit in Hfirst as [Hin Hnot].
    rewrite decide_True; [done|]. split; [|done]. by apply elem_of_list_to_set.
  - rewrite decide_False; [done|]. intros [Hin%elem_of_list_to_set Hnot].
    apply not_true_iff_false in Hfirst. by apply Hfirst, exact_first_hit.
Qed.

Lemma multi_scan_exact_labels_aux (o : options) (labels : list string)
    (rd : reader) :
  NoDup labels →
  let res := MultipleLabelSearch.scan (exact_matchers o labels) false rd in
  written res
  = first_by_key (label_key (id_only o)) (list_to_set labels) [] rd
  ∧ (found res = true ↔
     ∀ l, l ∈ labels → ∃ x, x ∈ rd ∧ label_key (id_only o) x = l).
Proof.
  intros Hnd res. subst res.
  pose proof (distinct_exact_disjoint o labels rd Hnd) as Hone.
  destruct (multi_scan_exact _ rd Hone) as (Hfound & Hw & _). split.
  - rewrite Hw. apply exact_first_hits.
  - by rewrite Hfound, exact_targets_matched.
Qed.

(** X13. For distinct exact labels, in any order: no header is accepted by
    two of the matchers built for them, so multi-label search writes exactly
    the records whose key (the header, or with [-i] its part before the first
    space or tab) is one of the labels and has not been seen earlier in the
    stream, and it reports [true] exactly when every label is the key of
    some record.  What is written depends on the labels as a set only. *)
Theorem multi_scan_exact_labels (o : options) (labels : list string)
    (rd : reader) :
  NoDup labels →
  let key := label_key (id_only o) in
  let res := MultipleLabelSearch.scan (exact_matchers o labels) false rd in
  at_most_one_target (exact_matchers o labels) rd
  ∧ written res = first_by_key key (list_to_set labels) [] rd
  ∧ (found res = true ↔ ∀ l, l ∈ labels → ∃ x, x ∈ rd ∧ key x = l)
  ∧ (length (written res) ≤ length labels)%nat.
Proof.
  intros Hnd key res. subst key res.
  destruct (multi_scan_exact_labels_aux o labels rd Hnd) as (Hw & Hfound).
  split; [by apply distinct_exact_disjoint|]. split; [done|]. split; [done|].
  destruct (multi_scan_once (exact_matchers o labels) rd) as (_ & Hlen & _).
  unfold exact_matchers in Hlen at 2. by rewrite length_fmap in Hlen.
Qed.

Lemma multi_scan_exact_labels_witness :
  let o := Options true false false true false false false in
  let labels := ["b"; "a"] in
  let rd := [("a x", ["AC"]); ("c", []); ("a y", ["TT"]); ("b", ["GT"])] in
  let key := label_key (id_only o) in
  let res := MultipleLabelSearch.scan (exact_matchers o labels) false rd in
  at_most_one_target (exact_matchers o labels) rd
  ∧ written res = first_by_key key (list_to_set labels) [] rd
  ∧ (found res = true ↔ ∀ l, l ∈ labels → ∃ x, x ∈ rd ∧ key x = l)
  ∧ (length (written res) ≤ length labels)%nat.
Proof.
  apply (multi_scan_exact_labels
           (Options true false false true false false false) ["b"; "a"]).
  apply NoDup_cons. split; [by intros ?%list_elem_of_singleton|].
  apply NoDup_singleton.
Defined.

Lemma mapM_exact (o : options) (labels : list string) :
  mapM (λ l, filter_class o <$> (mret (ExactMatch l) : result matcher)) labels
  = inr (exact_matchers o labels).
Proof.
  unfold exact_matchers. induction labels as [|l labels IH]; [done|].
  cbn [mapM]. rewrite IH. done.
Qed.

Lemma select_from_file_exact (o : options) (fs : files) (arg : string)
    (labels : gset string) :
  from_file o = true → regexp o = false → word_regexp o = false →
  is_range arg = false → load_labels fs arg = inr labels →
  check_args o [arg] ≫= select o fs
  = inr (MultipleLabel (exact_matchers o (elements labels)) false).
Proof.
  intros Hf Hr Hw Hrange Hload. unfold check_args, select, matcher_class.
  rewrite Hr, Hw, Hrange. simpl. rewrite Hrange, Hf, Hload.
  cbn [mbind result_bind]. cbv beta zeta.
  change (mapM _ (elements labels))
    with (mapM (λ l, filter_class o <$> (mret (ExactMatch l) : result matcher))
            (elements labels)).
  by rewrite mapM_exact.
Qed.

(** X14. With [-f] and no pattern option, for a label file that loads: the
    process prints exactly the records whose key (the header, or with [-i]
    its part before the first space or tab) is a label of the file and has
    not been seen earlier in the stream, and it fails exactly when [-m] is
    not given and some label of the file is the key of no record. *)
Theorem main_from_file_exact (o : options) (fs : files) (arg : string)
    (stdin : reader) (labels : gset string) :
  from_file o = true → regexp o = false → word_regexp o = false →
  is_range arg = false → load_labels fs arg = inr labels →
  let r := main o [arg] fs stdin in
  let key := label_key (id_only o) in
  stdout r
  = FastaWriter.output (negb (no_headers o)) (first_by_key key labels [] stdin)
  ∧ (failed r ↔
     ignore_missing o = false
     ∧ ∃ l, l ∈ labels ∧ Forall (λ x, key x ≠ l) stdin).
Proof.
  intros Hf Hr Hw Hrange Hload. cbv zeta. unfold main, failed.
  rewrite (select_from_file_exact o fs arg labels) by done. cbn [scan].
  destruct (multi_scan_exact_labels_aux o (elements labels) stdin)
    as (Hw' & Hfound); [apply NoDup_elements|].
  rewrite list_to_set_elements_L in Hw'.
  set (res := MultipleLabelSearch.scan _ false stdin) in *.
  assert (found res = false
          ↔ ∃ l, l ∈ labels
                 ∧ Forall (λ x, label_key (id_only o) x ≠ l) stdin) as Hmiss.
  { rewrite <-not_true_iff_false, Hfound. split.
    - intros Hnot.
      assert (¬ Forall (λ l, Exists (λ x, label_key (id_only o) x = l) stdin)
                  (elements labels)) as Hex.
      { intros Hall. apply Hnot. intros l Hl.
        rewrite Forall_forall in Hall.
        specialize (Hall l Hl). apply Exists_exists in Hall. done. }
      apply not_Forall_Exists in Hex; [|apply _].
      apply Exists_exists in Hex as (l & Hl & Hno).
      exists l. split; [by apply elem_of_elements|].
      by apply not_Exists_Forall in Hno; [|apply _].
    - intros (l & Hl%elem_of_elements & Hno) Hall.
      destruct (Hall l Hl) as (x & Hx & Hkey).
      rewrite Forall_forall in Hno. by apply (Hno x Hx). }
  split.
  - rewrite <-Hw'. by destruct (negb (found res) && negb (ignore_missing o)).
  - rewrite <-Hmiss.
    destruct (found res), (ignore_missing o); simpl; split.
    all: try (by intros [e [=]]).
    all: try (by intros [[=] [=]]).
    all: try (by intros [[=] _]).
    all: try (by intros [_ [=]]).
    all: try done.
    intros _. by eexists.
Qed.

Lemma main_from_file_exact_witness :
  let o := Options false false false true false false false in
  let fs : files := λ _, Some ["b
"; "a
"] in
  let stdin := [("a", ["AC"]); ("c", []); ("a", ["TT"]); ("b", ["GT"])] in
  let labels : gset string := list_to_set ["b"; "a"] in
  let r := main o ["labels.txt"] fs stdin in
  let key := label_key (id_only o) in
  stdout r
  = FastaWriter.output (negb (no_headers o)) (first_by_key key labels [] stdin)
  ∧ (failed r ↔
     ignore_missing o = false
     ∧ ∃ l, l ∈ labels ∧ Forall (λ x, key x ≠ l) stdin).
Proof.
  apply (main_from_file_exact
           (Options false false false true false false false));
    reflexivity.
Defined.

(** ** The order of the targets *)

Lemma existsb_perm {A} (f : A → bool) (l l' : list A) :
  l ≡ₚ l' → existsb f l = existsb f l'.
Proof.
  induction 1 as [|x l l' _ IH|x y l|l l' l'' _ IH1 _ IH2]; simpl.
  - done.
  - by rewrite IH.
  - by destruct (f x), (f y).
  - by rewrite IH1.
Qed.

Lemma first_hits_after_perm (ms ms' : list matcher) (before rd : reader) :
  ms ≡ₚ ms' → first_hits_after ms before rd = first_hits_after ms' before rd.
Proof.
  intros Hp. revert before; induction rd as [|r rd IH]; intros before; [done|].
  simpl. rewrite IH. unfold is_first_hit. by rewrite (existsb_perm _ ms ms').
Qed.

Lemma at_most_one_target_perm (ms ms' : list matcher) (rd : reader) :
  ms ≡ₚ ms' → at_most_one_target ms rd → at_most_one_target ms' rd.
Proof.
  intros Hp Hone. eapply Forall_impl; [exact Hone|]. intros r Hr. simpl in *.
  by rewrite <-Hp.
Qed.

Lemma targets_matched_perm (ms ms' : list matcher) (rd : reader) :
  ms ≡ₚ ms' → targets_matched ms rd → targets_matched ms' rd.
Proof. unfold targets_matched. by intros ->. Qed.

(** Two prefixes of a stream that both end where the targets are first
    complete leave the same suffix. *)
Lemma stop_point_unique (ms : list matcher) (c1 u1 c2 u2 : reader) :
  c1 ++ u1 = c2 ++ u2 →
  (u2 ≠ [] → targets_matched ms c2) →
  (∀ c r, c1 = c ++ [r] → ¬ targets_matched ms c) →
  (∃ k, c1 = c2 ++ k ∧ u2 = k ++ u1) →
  u1 = u2.
Proof.
  intros Heq Hdone Hmin (k & -> & ->).
  destruct k as [|x k _] using rev_ind; [done|]. exfalso.
  apply (Hmin (c2 ++ k) x); [by rewrite app_assoc|].
  apply targets_matched_app, Hdone. by destruct k.
Qed.

(** X15. When no label of the stream is accepted by two of the targets, the
    order in which the targets are given does not matter: multi-label search
    reports, writes and leaves unread the same for every rearrangement of the
    same targets. *)
Theorem multi_scan_order (ms ms' : list matcher) (reuse_matches : bool)
    (rd : reader) :
  ms ≡ₚ ms' → at_most_one_target ms rd →
  MultipleLabelSearch.scan ms reuse_matches rd
  = MultipleLabelSearch.scan ms' reuse_matches rd.
Proof.
  intros Hp Hone.
  pose proof (at_most_one_target_perm ms ms' rd Hp Hone) as Hone'.
  destruct (decide (ms = [])) as [->|Hne].
  { by apply Permutation_nil_l in Hp as ->. }
  assert (ms' ≠ []) as Hne'.
  { intros ->. by apply Permutation_nil_r in Hp. }
  assert (∀ res res' : scan_result,
            found res = found res' → written res = written res' →
            unread res = unread res' → res = res') as Hext.
  { intros [] []; simpl; by intros -> -> ->. }
  destruct reuse_matches.
  - destruct (multi_scan_reuse ms rd) as (Hf1 & Hb1 & Hw1 & Hu1).
    destruct (multi_scan_reuse ms' rd) as (Hf2 & Hb2 & Hw2 & Hu2).
    apply Hext.
    + apply eq_true_iff_eq. split.
      * intros H%Hf1. by apply Hb2, (targets_matched_perm ms).
      * intros H%Hf2. by apply Hb1, (targets_matched_perm ms').
    + rewrite Hw1, Hw2. apply list_filter_iff. intros r. unfold any_hit.
      by rewrite (existsb_perm _ ms ms').
    + by rewrite Hu1, Hu2.
  - destruct (multi_scan_exact ms rd Hone)
      as (Hf1 & Hw1 & c1 & Hrd1 & Hdone1 & Hmin1).
    destruct (multi_scan_exact ms' rd Hone')
      as (Hf2 & Hw2 & c2 & Hrd2 & Hdone2 & Hmin2).
    apply Hext.
    + apply eq_true_iff_eq. rewrite Hf1, Hf2. split.
      * by apply targets_matched_perm.
      * by apply targets_matched_perm.
    + rewrite Hw1, Hw2. by apply first_hits_after_perm.
    + assert (c1 ++ unread (MultipleLabelSearch.scan ms false rd)
              = c2 ++ unread (MultipleLabelSearch.scan ms' false rd)) as Heq
        by congruence.
      destruct (app_eq_inv _ _ _ _ Heq) as [Hk|Hk].
      * apply (stop_point_unique ms c1 _ c2 _ Heq); [|by apply Hmin1|done].
        intros Hu. by apply (targets_matched_perm ms'), Hdone2.
      * symmetry.
        apply (stop_point_unique ms' c2 _ c1 _ (eq_sym Heq));
          [|by apply Hmin2|done].
        intros Hu. by apply (targets_matched_perm ms), Hdone1.
Qed.

Lemma multi_scan_order_witness :
  let rd := [("a", ["AC"]); ("c", []); ("b", ["GT"]); ("a", ["TT"])] in
  MultipleLabelSearch.scan [ExactMatch "b"; ExactMatch "a"] false rd
  = MultipleLabelSearch.scan [ExactMatch "a"; ExactMatch "b"] false rd.
Proof.
  apply multi_scan_order; [apply perm_swap|repeat constructor].
Defined.

(** ** One pass over the stream *)

Lemma single_loop_pass (m : matcher) reuse f (rd : reader) :
  ∃ consumed,
    rd = consumed ++ unread (SingleLabelSearch.loop m reuse f rd)
    ∧ written (SingleLabelSearch.loop m reuse f rd) `sublist_of` consumed.
Proof.
  revert f; induction rd as [|[h ls] rd IH]; intros f.
  - by exists [].
  - cbn [SingleLabelSearch.loop]. destruct (m h).
    + destruct reuse.
      * destruct (IH true) as (c & Hrd & Hsub). exists ((h, ls) :: c).
        cbn [wrote written unread]. split; [simpl; by f_equal|].
        by apply sublist_skip.
      * exists [(h, ls)]. done.
    + destruct (IH f) as (c & Hrd & Hsub). exists ((h, ls) :: c).
      split; [simpl; by f_equal|]. by apply sublist_cons.
Qed.

Lemma multi_loop_pass reuse st (rd : reader) :
  ∃ consumed,
    rd = consumed ++ (MultipleLabelSearch.loop reuse st rd).2
    ∧ (MultipleLabelSearch.loop reuse st rd).1.1 `sublist_of` consumed.
Proof.
  revert st; induction rd as [|r rd IH]; intros st.
  - by exists [].
  - cbn [MultipleLabelSearch.loop].
    destruct (MultipleLabelSearch.step reuse st r) as [w st'] eqn:Hstep.
    assert (w `sublist_of` [r]) as Hw.
    { unfold MultipleLabelSearch.step in Hstep.
      destruct (MultipleLabelSearch.first_match _ _); injection Hstep as <- _;
        [done|apply sublist_nil_l]. }
    destruct (length _ =? 0)%nat.
    + exists [r]. done.
    + destruct (IH st') as (c & Hrd & Hsub).
      destruct (MultipleLabelSearch.loop reuse st' rd) as [[ws st''] rest].
      cbn [fst snd] in *. exists (r :: c). split; [simpl; by f_equal|].
      change (r :: c) with ([r] ++ c). by apply sublist_app.
Qed.

Lemma index_loop_pass idx pos (rd : reader) :
  ∃ consumed,
    rd = consumed ++ unread (IndexSearch.loop idx pos rd)
    ∧ written (IndexSearch.loop idx pos rd) `sublist_of` consumed.
Proof.
  revert pos; induction rd as [|[h ls] rd IH]; intros pos.
  - by exists [].
  - cbn [IndexSearch.loop]. destruct (pos =? idx).
    + exists [(h, ls)]. done.
    + destruct (IH (pos + 1)) as (c & Hrd & Hsub). exists ((h, ls) :: c).
      split; [simpl; by f_equal|]. by apply sublist_cons.
Qed.

Lemma range_loop_pass start stop pos (rd : reader) :
  ∃ consumed,
    rd = consumed ++ unread (RangeSearch.loop start stop pos rd)
    ∧ written (RangeSearch.loop start stop pos rd) `sublist_of` consumed.
Proof.
  revert pos; induction rd as [|[h ls] rd IH]; intros pos.
  - by exists [].
  - cbn [RangeSearch.loop]. destruct (RangeSearch.at_stop stop (pos + 1)).
    + exists [(h, ls)]. split; [done|apply sublist_nil_l].
    + destruct (IH (pos + 1)) as (c & Hrd & Hsub). exists ((h, ls) :: c).
      destruct (RangeSearch.from_start start (pos + 1));
        cbn [wrote written unread].
      * split; [simpl; by f_equal|]. by apply sublist_skip.
      * split; [simpl; by f_equal|]. by apply sublist_cons.
Qed.

(** X16. Every strategy makes one pass: what it leaves unread is a suffix of
    the stream, and what it writes is a sub-sequence of the records it has
    read, so each record is written at most once, in stream order, and never
    before it is read. *)
Theorem scan_single_pass (s : search) (rd : reader) :
  ∃ consumed,
    rd = consumed ++ unread (scan s rd)
    ∧ written (scan s rd) `sublist_of` consumed.
Proof.
  destruct s as [m reuse|ms reuse|idx|start stop]; cbn [scan].
  - apply single_loop_pass.
  - unfold MultipleLabelSearch.scan, MultipleLabelSearch.run.
    destruct (multi_loop_pass reuse (MultipleLabelSearch.init ms) rd)
      as (c & Hrd & Hsub).
    destruct (MultipleLabelSearch.loop _ _ rd) as [[ws st] rest].
    by exists c.
  - apply index_loop_pass.
  - apply range_loop_pass.
Qed.

(** ** A plain word as a pattern *)

Lemma parse_seq_lits_end (w : list ascii) n :
  forallb Re.is_word w = true →
  Re.parse_seq (length w + S n) w = Some (lits w Re.Eps, []).
Proof.
  intros Hw. induction w as [|c w IH]; [done|].
  apply andb_true_iff in Hw as [Hc Hw]. specialize (IH Hw).
  change (length (c :: w) + S n)%nat with (S (length w + S n)).
  rewrite parse_seq_S. destruct (word_char_plain c Hc) as (_ & -> & _).
  rewrite Nat.add_succ_r at 1. rewrite parse_atom_word by done.
  cbn [mbind option_bind].
  assert (Re.parse_repeat (Re.Chr (Re.CLit c)) w = Some (Re.Chr (Re.CLit c), w))
    as ->.
  { destruct w as [|c' w]; [done|].
    apply andb_true_iff in Hw as [Hc' _].
    destruct (word_char_plain c' Hc') as (Hq & _ & _ & _ & _ & _ & _ & _ & Hb).
    by apply parse_repeat_plain. }
  cbn [mbind option_bind]. by rewrite IH.
Qed.

Lemma compile_plain (p : string) :
  plain_word p = true →
  Re.compile p = Some (lits (list_ascii_of_string p) Re.Eps).
Proof.
  unfold plain_word, Re.compile. intros Hw. cbv zeta.
  set (w := list_ascii_of_string p) in *.
  replace (3 * length w + 3)%nat with (S (length w + S (2 * length w + 1)))
    by lia.
  cbn [Re.parse_alt]. fold Re.parse_seq.
  by rewrite parse_seq_lits_end.
Qed.

Lemma accepts_plain (w : list ascii) bos s :
  Re.accepts (lits w Re.Eps) bos s (λ _ _, true) = true ↔
  ∃ post, s = w ++ post.
Proof.
  revert bos s; induction w as [|c w IH]; intros bos s.
  - simpl. split; [by exists s|done].
  - cbn [lits foldr Re.accepts]. fold (lits w Re.Eps). destruct s as [|a s].
    + split; [done|]. by intros (post & [=]).
    + cbn [Re.cclass_match]. rewrite andb_true_iff, IH, Ascii.eqb_eq. split.
      * intros (-> & post & ->). by exists post.
      * intros (post & [= -> ->]). split; [done|]. by exists post.
Qed.

Lemma search_plain (w : list ascii) bos s :
  Re.search_from (lits w Re.Eps) bos s = true ↔ occurs w s.
Proof.
  unfold occurs. revert bos; induction s as [|a s IH]; intros bos.
  - cbn [Re.search_from]. rewrite orb_false_r, accepts_plain. split.
    + intros (post & Hs). by exists [], post.
    + intros (pre & post & Hs). destruct pre; [by exists post|done].
  - cbn [Re.search_from]. rewrite orb_true_iff, accepts_plain, IH. split.
    + intros [(post & Hs)|(pre & post & ->)].
      * by exists [], post.
      * by exists (a :: pre), post.
    + intros (pre & post & Hs). destruct pre as [|a' pre]; simpl in Hs.
      * left. by exists post.
      * injection Hs as <- ->. right. by exists pre, post.
Qed.

Lemma delimited_occurs (w L : list ascii) : delimited w L → occurs w L.
Proof. intros (pre & post & -> & _). by exists pre, post. Qed.

(** X17. A pattern that is a plain word always compiles, and as a pattern
    matcher it accepts exactly the labels in which the word occurs anywhere:
    the match is a search, not a match of the whole label.  Every label the
    word matcher of the same word accepts is accepted by the pattern
    matcher. *)
Theorem regexp_plain_word (p L : string) :
  plain_word p = true →
  ∃ m mw,
    RegularExpressionMatch p = Some m
    ∧ WordRegularExpressionMatch p = Some mw
    ∧ (m L = true ↔ occurs (list_ascii_of_string p) (list_ascii_of_string L))
    ∧ (mw L = true → m L = true).
Proof.
  intros Hp. unfold WordRegularExpressionMatch, RegularExpressionMatch.
  rewrite compile_plain_word, compile_plain by done.
  cbn [mbind option_bind]. do 2 eexists. do 2 (split; [reflexivity|]).
  cbv beta. unfold Re.search. rewrite search_plain. split; [done|].
  intros H%search_delimited. by apply delimited_occurs.
Qed.

Lemma regexp_plain_word_witness :
  ∃ m mw,
    RegularExpressionMatch "cat" = Some m
    ∧ WordRegularExpressionMatch "cat" = Some mw
    ∧ (m "category" = true ↔
       occurs (list_ascii_of_string "cat") (list_ascii_of_string "category"))
    ∧ (mw "category" = true → m "category" = true).
Proof. apply (regexp_plain_word "cat" "category"). reflexivity. Defined.

(** ** A plain word with a pattern option *)

Lemma word_char_not_at (c : ascii) :
  Re.is_word c = true → Ascii.eqb c "@" = false.
Proof.
  destruct c as [[] [] [] [] [] [] [] []]; vm_compute; intros H;
    first [discriminate H | reflexivity].
Qed.

Lemma plain_word_not_range (p : string) :
  plain_word p = true → is_range p = false.
Proof.
  destruct p as [|c p]; [done|]. unfold plain_word. simpl.
  intros [Hc _]%andb_true_iff. by apply word_char_not_at.
Qed.

Lemma pattern_matcher_plain (o : options) (p : string) :
  plain_word p = true → xorb (regexp o) (word_regexp o) = true →
  ∃ m : matcher,
    (matcher_class o).1 p = inr m
    ∧ (matcher_class o).2 = true
    ∧ ∀ L, m L = true ↔ word_found o p L.
Proof.
  intros Hp Hx. unfold matcher_class, word_found.
  destruct (regexp o) eqn:Hr.
  - cbn [fst snd]. unfold compiled, RegularExpressionMatch.
    rewrite compile_plain by done. cbn [mbind option_bind].
    eexists. do 2 (split; [reflexivity|]). intros L. apply search_plain.
  - simpl in Hx. rewrite Hx. cbn [fst snd].
    unfold compiled, WordRegularExpressionMatch, RegularExpressionMatch.
    rewrite compile_plain_word by done. cbn [mbind option_bind].
    eexists. do 2 (split; [reflexivity|]). intros L. apply search_delimited.
Qed.

(** X18. With exactly one of [-r] and [-w], without [-f], and a pattern that
    is a plain word: the process prints every record whose label (with [-i]
    its part before the first space or tab) holds the word, anywhere for
    [-r] and between non-word characters or label ends for [-w]; it prints
    them in stream order, reads the whole stream, and fails exactly when
    [-m] is not given and no label holds the word. *)
Theorem main_plain_pattern (o : options) (fs : files) (p : string)
    (stdin : reader) :
  plain_word p = true → xorb (regexp o) (word_regexp o) = true →
  from_file o = false →
  let r := main o [p] fs stdin in
  let key := label_key (id_only o) in
  ∃ m : matcher,
    (∀ L, m L = true ↔ word_found o p L)
    ∧ stdout r
      = FastaWriter.output (negb (no_headers o))
          (filter (λ x, m (key x)) stdin)
    ∧ (failed r ↔
       ignore_missing o = false
       ∧ Forall (λ x, ¬ word_found o p (key x)) stdin)
    ∧ stdin_left r = [].
Proof.
  intros Hp Hx Hf. cbv zeta.
  destruct (pattern_matcher_plain o p Hp Hx) as (m & Hmc & Hreuse & Hm).
  exists m. split; [done|].
  assert (check_args o [p] ≫= select o fs
          = inr (SingleLabel (filter_class o m) true)) as Hsel.
  { unfold check_args, select. rewrite (plain_word_not_range p Hp).
    destruct (regexp o), (word_regexp o); try done; simpl;
      rewrite (plain_word_not_range p Hp), Hf;
      destruct (matcher_class o) as [mc reuse]; simpl in *;
      subst reuse; by rewrite Hmc. }
  unfold main, failed. rewrite Hsel. cbn [scan].
  unfold SingleLabelSearch.scan.
  pose proof (single_loop_found (filter_class o m) true false stdin) as Hfound.
  destruct (single_loop_reuse (filter_class o m) false stdin) as [Hw Hu].
  assert (∀ x : record,
            hits (filter_class o m) x = m (label_key (id_only o) x)) as Hkey.
  { intros x. unfold hits, filter_class, label_key, identity_filter.
    destruct (id_only o); [apply id_filter_truncated|done]. }
  assert (filter (λ x, hits (filter_class o m) x) stdin
          = filter (λ x, m (label_key (id_only o) x)) stdin) as Hfilter.
  { apply list_filter_iff. intros x. by rewrite Hkey. }
  assert (found (SingleLabelSearch.loop (filter_class o m) true false stdin)
          = false
          ↔ Forall (λ x, ¬ word_found o p (label_key (id_only o) x)) stdin)
    as Hmiss.
  { rewrite Hfound. simpl. rewrite <-not_true_iff_false, existsb_exists.
    rewrite Forall_forall. split.
    - intros Hno x Hin Hword. apply Hno. exists x.
      split; [by apply list_elem_of_In|]. rewrite Hkey. by apply Hm.
    - intros Hall (x & Hin%list_elem_of_In & Hhit). apply (Hall x Hin).
      apply Hm. by rewrite <-Hkey. }
  rewrite <-Hmiss, <-Hfilter, <-Hw.
  set (res := SingleLabelSearch.loop (filter_class o m) true false stdin) in *.
  split; [by destruct (negb (found res) && negb (ignore_missing o))|].
  split.
  - destruct (found res), (ignore_missing o); simpl; split.
    all: try (by intros [e [=]]).
    all: try (by intros [[=] [=]]).
    all: try (by intros [[=] _]).
    all: try (by intros [_ [=]]).
    all: try done.
    intros _. by eexists.
  - destruct (negb (found res) && negb (ignore_missing o)); simpl; [done|].
    by destruct (read_all_input_file o).
Qed.

Lemma main_plain_pattern_witness :
  let o := Options false false true false false false false in
  let stdin := [("the cat sat", ["AC"]); ("category", ["GT"]); ("cat", [])] in
  let r := main o ["cat"] (λ _, None) stdin in
  let key := label_key (id_only o) in
  ∃ m : matcher,
    (∀ L, m L = true ↔ word_found o "cat" L)
    ∧ stdout r
      = FastaWriter.output (negb (no_headers o))
          (filter (λ x, m (key x)) stdin)
    ∧ (failed r ↔
       ignore_missing o = false
       ∧ Forall (λ x, ¬ word_found o "cat" (key x)) stdin)
    ∧ stdin_left r = [].
Proof.
  apply (main_plain_pattern (Options false false true false false false false));
    reflexivity.
Defined.
